(** * Text cleaning and corpus statistics of [natural_language_processing.py]

    A shallow embedding of the notebook's text-normalisation pipeline
    (cells In[19] and In[22]), its bag-of-words counters (In[17], In[19]),
    the corpus dictionary and document vectors (In[23], In[24]), the corpus
    totals (In[26]) and the download loop (In[21]), followed by the
    properties the specification states about them.

    Python values are modelled as follows.
    - [str] is a sequence of Unicode code points ([list N]).
    - a [dict] (also [Counter] and [defaultdict]) is an association list in
      insertion order with pairwise distinct keys, as CPython >= 3.7 keeps it.
    - [sorted] is the stable sort of a list under a strict comparison.
    - [collections.Counter] and [gensim.corpora.Dictionary] follow the code
      of those libraries ([Counter.most_common], [Dictionary.add_documents],
      [Dictionary.doc2bow]).
    - NLTK's [word_tokenize] and [WordNetLemmatizer.lemmatize], the Unicode
      tables behind [str.lower] and [str.isalpha], and the answers of
      [requests.get] are parameters. *)

From Stdlib Require Import Ascii String.
From stdpp Require Import base decidable option numbers list sorting strings.

(** ** Part I: definitions *)

(** *** Python strings *)

Definition char := N.
Definition str := list char.

(** A source literal made of ASCII characters only. *)
Definition lit (s : string) : str := N_of_ascii <$> list_ascii_of_string s.

Definition apostrophe : char := 39%N.

Definition ascii_isupper (c : char) : bool := ((65 <=? c) && (c <=? 90))%N.
Definition ascii_islower (c : char) : bool := ((97 <=? c) && (c <=? 122))%N.
Definition ascii_isalpha (c : char) : bool := ascii_isupper c || ascii_islower c.
Definition ascii_tolower (c : char) : char :=
  if ascii_isupper c then (c + 32)%N else c.
Definition is_ascii (c : char) : bool := (c <? 128)%N.

(** The part of the Unicode character database that [str.isalpha] and
    [str.lower] read for code points outside ASCII.  [ucd_lower_at s i c]
    is the lower-case expansion of the code point [c] found at index [i] of
    [s]: the full lower-case mapping of [c], except for capital sigma whose
    image depends on its neighbours.  [ucd_islower] is the
    Lowercase property, which [str.islower] reads; the pipeline never
    consults it. *)
Record unicode_db := {
  ucd_isalpha : char → bool;
  ucd_lower_at : str → nat → char → str;
  ucd_islower : char → bool;
  ucd_isupper : char → bool
}.

Section py_str.
Context (U : unicode_db).

Definition isalpha_cp (c : char) : bool :=
  if is_ascii c then ascii_isalpha c else ucd_isalpha U c.

Definition islower_cp (c : char) : bool :=
  if is_ascii c then ascii_islower c else ucd_islower U c.

Definition isupper_cp (c : char) : bool :=
  if is_ascii c then ascii_isupper c else ucd_isupper U c.

(** [t.isalpha()]: false on the empty string, otherwise every code point
    must be alphabetic. *)
Definition isalpha (t : str) : bool :=
  match t with
  | [] => false
  | _ => forallb isalpha_cp t
  end.

Definition lower_at (s : str) (i : nat) (c : char) : str :=
  if is_ascii c then [ascii_tolower c] else ucd_lower_at U s i c.

(** [t.lower()]: every code point is replaced by its expansion. *)
Definition lower (s : str) : str := mjoin (imap (lower_at s) s).
End py_str.

(** Order of [str] values under [<]: lexicographic on code points. *)
Fixpoint str_lt (a b : str) : bool :=
  match a, b with
  | _, [] => false
  | [], _ :: _ => true
  | x :: a', y :: b' =>
      if (x <? y)%N then true
      else if (y <? x)%N then false
      else str_lt a' b'
  end.

(** *** The text normaliser (cells In[19] and In[22]) *)

Definition english_stops : list str := lit <$>
  ["i";"me";"my";"myself";"we";"our";"ours";"ourselves";"you";"your";"yours";
   "yourself";"yourselves";"he";"him";"his";"himself";"she";"her";"hers";
   "herself";"it";"its";"itself";"they";"them";"their";"theirs";"themselves";
   "what";"which";"who";"whom";"this";"that";"these";"those";"am";"is";"are";
   "was";"were";"be";"been";"being";"have";"has";"had";"having";"do";"does";
   "did";"doing";"a";"an";"the";"and";"but";"if";"or";"because";"as";"until";
   "while";"of";"at";"by";"for";"with";"about";"against";"between";"into";
   "through";"during";"before";"after";"above";"below";"to";"from";"up";
   "down";"in";"out";"on";"off";"over";"under";"again";"further";"then";
   "once";"here";"there";"when";"where";"why";"how";"all";"any";"both";"each";
   "few";"more";"most";"other";"some";"such";"no";"nor";"not";"only";"own";
   "same";"so";"than";"too";"very";"s";"t";"can";"will";"just";"don";"should";
   "now";"d";"ll";"m";"o";"re";"ve";"y";"ain";"aren";"couldn";"didn";"doesn";
   "hadn";"hasn";"haven";"isn";"ma";"mightn";"mustn";"needn";"shan";"shouldn";
   "wasn";"weren";"won";""]%string.

Definition earlymodern_stops : list str := lit <$>
  ["art";"doth";"dost";"'ere";"hast";"hath";"hence";"hither";"nigh";"oft";
   "should'st";"thither";"tither";"thee";"thou";"thine";"thy";"'tis";"'twas";
   "wast";"whence";"wherefore";"whereto";"withal";"would'st";"ye";"yon";
   "yonder"]%string.

(** The list the play is filtered against in In[19]. *)
Definition troilus_stops : list str := english_stops ++ earlymodern_stops.

(** The imported text routines: NLTK's [word_tokenize] and
    [WordNetLemmatizer().lemmatize] (default part of speech). *)
Record nltk := {
  word_tokenize : str → list str;
  lemmatize : str → str
}.

Section normalizer.
Context (U : unicode_db) (L : nltk).

(** [lower_tokens = [t.lower() for t in tokens]] *)
Definition lower_tokens (text : str) : list str :=
  lower U <$> word_tokenize L text.

(** [alpha_only = [t for t in lower_tokens if t.isalpha()]] *)
Definition alpha_only (text : str) : list str :=
  filter (λ t, isalpha U t) (lower_tokens text).

(** [no_stops = [t for t in alpha_only if t not in stops]] *)
Definition no_stops (stops : list str) (text : str) : list str :=
  filter (λ t, t ∉ stops) (alpha_only text).

(** [lemmatized = [wordnet_lemmatizer.lemmatize(t) for t in no_stops]] *)
Definition lemmatized (stops : list str) (text : str) : list str :=
  lemmatize L <$> no_stops stops text.
End normalizer.

(** A raw token survives the filters when its lower-cased form is alphabetic
    and not a stop word. *)
Definition survives (U : unicode_db) (stops : list str) (s : str) : Prop :=
  isalpha U (lower U s) ∧ lower U s ∉ stops.

Global Instance survives_dec U stops s : Decision (survives U stops s).
Proof. unfold survives. apply _. Defined.

(** The stop list of the claim under comparison: the entries that contain
    an apostrophe taken out. *)
Definition without_apostrophes (stops : list str) : list str :=
  filter (λ w, apostrophe ∉ w) stops.

(** *** Python dictionaries, sorting and counting *)

(** A dictionary keeps its items in insertion order; rebinding a key keeps
    the key's position. *)
Abbreviation dict K V := (list (K * V)) (only parsing).

Section dict.
Context {K V : Type} `{EqDecision K}.

(** [d.get(k)]: [None] when the key is missing. *)
Fixpoint dict_get (d : dict K V) (k : K) : option V :=
  match d with
  | [] => None
  | (k', v) :: d' => if decide (k' = k) then Some v else dict_get d' k
  end.

(** [d[k] = v] *)
Fixpoint dict_set (d : dict K V) (k : K) (v : V) : dict K V :=
  match d with
  | [] => [(k, v)]
  | (k', v') :: d' =>
      if decide (k' = k) then (k, v) :: d' else (k', v') :: dict_set d' k v
  end.

Definition dict_keys (d : dict K V) : list K := d.*1.
End dict.

(** [sorted(l)] under the strict comparison [lt].  Python's sort is stable
    and the stable sorted arrangement of a list is unique, so any stable
    algorithm computes it; this one inserts from the right.  With
    [reverse=True] Python sorts stably under the reversed comparison, which
    is [sorted] at the flipped [lt]. *)
Section sorted.
Context {A : Type} (lt : A → A → bool).

Fixpoint insert_sorted (x : A) (l : list A) : list A :=
  match l with
  | [] => [x]
  | y :: l' => if lt y x then y :: insert_sorted x l' else x :: y :: l'
  end.

Definition sorted (l : list A) : list A := foldr insert_sorted [] l.

(** [x] may stand before [y] in a sorted list when [y] is not smaller. *)
Definition may_precede (x y : A) : Prop := lt y x = false.
End sorted.

(** Order of tuples under [<]: the first components decide unless equal. *)
Definition tuple_lt {A B} `{EqDecision A}
    (ltA : A → A → bool) (ltB : B → B → bool) (a b : A * B) : bool :=
  if decide (a.1 = b.1) then ltB a.2 b.2 else ltA a.1 b.1.

Section counting.
Context {K : Type} `{EqDecision K}.

(** [for elem in iterable: mapping[elem] = mapping.get(elem, 0) + 1], the
    loop behind [Counter(iterable)] and behind the [defaultdict(int)]
    counter of [doc2bow]. *)
Definition count_elements (iterable : list K) : dict K nat :=
  foldl (λ mapping elem,
           dict_set mapping elem (default 0 (dict_get mapping elem) + 1))
        [] iterable.

Definition Counter (iterable : list K) : dict K nat := count_elements iterable.

(** [c[k]] on a [Counter]: a missing key reads as zero. *)
Definition Counter_getitem (c : dict K nat) (k : K) : nat :=
  default 0 (dict_get c k).

(** [c.most_common(n)]:
    [heapq.nlargest(n, c.items(), key=itemgetter(1))], which is
    [sorted(c.items(), key=itemgetter(1), reverse=True)[:n]]. *)
Definition by_count_desc (a b : K * nat) : bool := b.2 <? a.2.

Definition most_common (c : dict K nat) (n : nat) : list (K * nat) :=
  take n (sorted by_count_desc c).

(** Number of occurrences and position of the first occurrence. *)
Definition occurrences (k : K) (l : list K) : nat :=
  length (filter (λ x, x = k) l).

Fixpoint first_index (k : K) (l : list K) : option nat :=
  match l with
  | [] => None
  | x :: l' => if decide (x = k) then Some 0 else S <$> first_index k l'
  end.
End counting.

(** *** The corpus dictionary and the document vectors (In[23], In[24])

    [gensim.corpora.Dictionary] as the notebook uses it: the constructor
    feeds every document to [doc2bow(document, allow_update=True)]; the
    statistics fields it also maintains are never read by the notebook and
    are left out. *)
Record gensim_dictionary := { token2id : dict str nat }.

Definition str_tuple_lt : str * nat → str * nat → bool := tuple_lt str_lt Nat.ltb.
Definition id_tuple_lt : nat * nat → nat * nat → bool := tuple_lt Nat.ltb Nat.ltb.

Section doc2bow.
Context (self : gensim_dictionary) (document : list str) (allow_update : bool).

(** [missing = sorted(x for x in counter.items() if x[0] not in token2id)] *)
Definition missing (counter : dict str nat) : list (str * nat) :=
  sorted str_tuple_lt
    (filter (λ x, dict_get (token2id self) x.1 = None) counter).

(** [for w, _ in missing: token2id[w] = len(token2id)] *)
Definition assign_ids (t2i : dict str nat) (new : list (str * nat)) : dict str nat :=
  foldl (λ t x, dict_set t x.1 (length t)) t2i new.

(** [{token2id[w]: freq for w, freq in counter.items() if w in token2id}] *)
Definition bow_of (t2i : dict str nat) (counter : dict str nat) : dict nat nat :=
  foldl (λ result x,
           match dict_get t2i x.1 with
           | Some i => dict_set result i x.2
           | None => result
           end)
        [] counter.

Definition doc2bow : list (nat * nat) * gensim_dictionary :=
  let counter := count_elements document in
  let t2i :=
    if allow_update then assign_ids (token2id self) (missing counter)
    else token2id self in
  (sorted id_tuple_lt (bow_of t2i counter), {| token2id := t2i |}).
End doc2bow.

Definition prune_at : N := 2000000%N.

(** [add_documents]: at every 10000th document a dictionary that has grown
    beyond [prune_at] tokens is pruned by [filter_extremes], which drops
    tokens and renumbers the rest.  That step is not modelled: [None]
    marks a run that reaches it. *)
Fixpoint add_documents (self : gensim_dictionary) (docno : N)
    (documents : list (list str)) : option gensim_dictionary :=
  match documents with
  | [] => Some self
  | document :: rest =>
      if ((docno mod 10000 =? 0) && (prune_at <? N.of_nat (length (token2id self))))%N
      then None
      else add_documents (doc2bow self document true).2 (docno + 1)%N rest
  end.

(** [Dictionary(documents)] *)
Definition Dictionary (documents : list (list str)) : option gensim_dictionary :=
  add_documents {| token2id := [] |} 0%N documents.

(** The vocabulary invariant: no token and no id occurs twice. *)
Definition unique_ids (t2i : dict str nat) : Prop :=
  NoDup (dict_keys t2i) ∧ NoDup t2i.*2.

(** The stronger form the constructor maintains: the ids are 0, 1, 2, ...
    in insertion order. *)
Definition well_numbered (t2i : dict str nat) : Prop :=
  NoDup (dict_keys t2i) ∧ t2i.*2 = seq 0 (length t2i).

(** Token [w] occurs in document number [m] and in no earlier document. *)
Definition first_seen_in (documents : list (list str)) (w : str) (m : nat) : Prop :=
  (∃ doc, documents !! m = Some doc ∧ w ∈ doc) ∧
  ∀ m' doc', m' < m → documents !! m' = Some doc' → w ∉ doc'.

(** The two documents of the worked example. *)
Definition sample_documents : list (list str) :=
  [lit <$> ["cost"; "cost"; "benefit"]%string; lit <$> ["benefit"; "analysis"]%string].

(** [dictionary.token2id.get(token)] *)
Definition token2id_get (d : gensim_dictionary) (token : str) : option nat :=
  dict_get (token2id d) token.

(** [utils.revdict(token2id)], the [id2token] table. *)
Definition revdict (d : dict str nat) : dict nat str :=
  foldl (λ r kv, dict_set r kv.2 kv.1) [] d.

(** [dictionary.get(tokenid)]: [Mapping.get] turns the [KeyError] of a
    failed [id2token] lookup into [None]; [tokenid] may itself be the
    [None] that [token2id.get] returned. *)
Definition Dictionary_get (d : gensim_dictionary) (tokenid : option nat) : option str :=
  i ← tokenid; dict_get (revdict (token2id d)) i.

(** [corpus = [dictionary.doc2bow(article) for article in articles]] *)
Definition corpus_of (d : gensim_dictionary) (articles : list (list str))
    : list (list (nat * nat)) :=
  (λ article, (doc2bow d article false).1) <$> articles.

(** The vector entry a counter item contributes: none when the token is
    not in the vocabulary. *)
Definition bow_entry (t2i : dict str nat) (x : str * nat) : option (nat * nat) :=
  (λ i, (i, x.2)) <$> dict_get t2i x.1.

(** Count read off a sparse document vector: an id without an entry counts
    zero. *)
Definition bow_count (bow : list (nat * nat)) (i : nat) : nat :=
  default 0 (dict_get bow i).

(** *** Corpus totals (In[26]) *)

(** [d[k]] on a [defaultdict(int)]: a missing key is first bound to
    [int()], that is to zero. *)
Definition defaultdict_getitem (d : dict nat nat) (k : nat) : nat * dict nat nat :=
  match dict_get d k with
  | Some v => (v, d)
  | None => (0, dict_set d k 0)
  end.

(** [total_word_count[word_id] += word_count] *)
Definition add_word_count (d : dict nat nat) (item : nat * nat) : dict nat nat :=
  let '(v, d') := defaultdict_getitem d item.1 in
  dict_set d' item.1 (v + item.2).

(** The loop over [itertools.chain.from_iterable(corpus)]. *)
Definition total_word_count (corpus : list (list (nat * nat))) : dict nat nat :=
  foldl add_word_count [] (mjoin corpus).

(** The sum of the counts that the items of some document vectors record
    for one id. *)
Definition count_sum (word_id : nat) (items : list (nat * nat)) : nat :=
  sum_list (filter (λ x, x.1 = word_id) items).*2.

(** The vectors of the worked example: two documents over three ids. *)
Definition sample_corpus : list (list (nat * nat)) :=
  [[(0, 2); (1, 1)]; [(1, 1); (2, 1)]].

(** *** The download loop (In[21]) *)

Inductive exc_class :=
  | builtins_Exception
  | builtins_NameError
  | builtins_TypeError
  | requests_RequestException
  | requests_HTTPError
  | requests_ConnectionError
  | requests_Timeout.

Global Instance exc_class_eq_dec : EqDecision exc_class.
Proof. solve_decision. Defined.

(** Every class above derives from [Exception]; the three [requests]
    failures derive from [RequestException]. *)
Definition issubclass (c base : exc_class) : bool :=
  match base with
  | builtins_Exception => true
  | requests_RequestException =>
      match c with
      | requests_RequestException | requests_HTTPError
      | requests_ConnectionError | requests_Timeout => true
      | _ => false
      end
  | _ => bool_decide (c = base)
  end.

(** A raised exception: its class and, for a [NameError], the name. *)
Record exception := { exc_type : exc_class; exc_arg : string }.

Inductive result (A : Type) :=
  | Return (a : A)
  | Raise (e : exception).
Global Arguments Return {A} a.
Global Arguments Raise {A} e.

Definition is_Return {A} (r : result A) : bool :=
  match r with Return _ => true | Raise _ => false end.

(** What evaluating the unbound name [HTTPError] raises. *)
Definition name_error_HTTPError : exception :=
  {| exc_type := builtins_NameError; exc_arg := "HTTPError" |}.

Record Response := { status_code : Z; text : str }.

(** The names the notebook has bound at module level when the loop of
    In[21] runs (imports and assignments of In[1] to In[21], plus the loop's
    own targets).  None of them is bound to an exception class. *)
Definition notebook_globals : list string :=
  ["re"; "my_string"; "sentence_endings"; "capitalized_words"; "digits";
   "qubits"; "nltk"; "sent_tokenize"; "word_tokenize"; "x"; "filename";
   "file"; "scene_two"; "sentences"; "sent_tokens"; "scene_tokens"; "match";
   "regexp_tokenize"; "TweetTokenizer"; "french_text"; "all_words";
   "capital_words"; "emoji"; "troilus"; "lines"; "pattern"; "plt"; "np";
   "tokenized_lines"; "line_num_words"; "bins"; "Counter"; "tokens";
   "lower_tokens"; "bow_simple"; "troilus_body"; "alpha_only";
   "english_stops"; "earlymodern_stops"; "no_stops"; "WordNetLemmatizer";
   "wordnet_lemmatizer"; "lemmatized"; "bow"; "requests"; "bs4";
   "Dictionary"; "urls"; "responses"; "url"; "r"; "http_err"; "err"]%string.

(** Evaluation of a name in an [except] clause: module globals first, then
    the builtins; a name bound nowhere raises [NameError], and a value that
    is no exception class cannot be caught against. *)
Definition load_exception_class (name : string) : result exc_class :=
  if decide (name ∈ notebook_globals)
  then Raise {| exc_type := builtins_TypeError; exc_arg := name |}
  else if decide (name = "Exception"%string) then Return builtins_Exception
  else Raise {| exc_type := builtins_NameError; exc_arg := name |}.

Definition urls : list string :=
  ["https://en.wikipedia.org/wiki/Revenue";
   "https://en.wikipedia.org/wiki/Profit_margin";
   "https://en.wikipedia.org/wiki/Gross_margin";
   "https://en.wikipedia.org/wiki/Customer_acquisition_cost";
   "https://en.wikipedia.org/wiki/Customer_retention";
   "https://en.wikipedia.org/wiki/Loyalty_marketing";
   "https://en.wikipedia.org/wiki/Net_Promoter";
   "https://en.wikipedia.org/wiki/Lead_generation";
   "https://en.wikipedia.org/wiki/Conversion_rate_optimization";
   "https://en.wikipedia.org/wiki/Web_analytics";
   "https://en.wikipedia.org/wiki/Benchmarking";
   "https://en.wikipedia.org/wiki/Employee_engagement"]%string.

Section download.
(** What the network answers to [requests.get(url)]. *)
Context (requests_get : string → result Response).

(** [r.raise_for_status()]: statuses 400 to 599 raise [HTTPError]. *)
Definition raise_for_status (r : Response) : result unit :=
  if ((400 <=? status_code r) && (status_code r <? 600))%Z
  then Raise {| exc_type := requests_HTTPError; exc_arg := "" |}
  else Return ().

(** The [try] suite. *)
Definition try_get (url : string) : result Response :=
  match requests_get url with
  | Return r =>
      match raise_for_status r with
      | Return _ => Return r
      | Raise e => Raise e
      end
  | Raise e => Raise e
  end.

(** The [except] clauses, tried in order: the clause's expression is
    evaluated, then matched against the exception in flight; a matching
    clause prints and the statement completes. *)
Fixpoint except_clauses (clauses : list string) (e : exception) : result unit :=
  match clauses with
  | [] => Raise e
  | name :: rest =>
      match load_exception_class name with
      | Raise e' => Raise e'
      | Return cls =>
          if issubclass (exc_type e) cls then Return ()
          else except_clauses rest e
      end
  end.

(** [for url in urls: try ... except HTTPError ... except Exception ...
    else: responses.append(r)] *)
Fixpoint download (urls : list string) (responses : list Response)
    : result (list Response) :=
  match urls with
  | [] => Return responses
  | url :: rest =>
      match try_get url with
      | Return r => download rest (responses ++ [r])
      | Raise e =>
          match except_clauses ["HTTPError"; "Exception"]%string e with
          | Return _ => download rest responses
          | Raise e' => Raise e'
          end
      end
  end.
End download.

(** *** Lines, sentence splitting and pattern searches
    (In[2], In[3], In[11] to In[15], In[18]) *)

Definition newline : char := 10%N.

Definition is_newline (c : char) : bool := (c =? newline)%N.

(** [[.?!]], the class of [sentence_endings]. *)
Definition is_sentence_ending (c : char) : bool :=
  (c =? 46)%N || (c =? 63)%N || (c =? 33)%N.

(** [s.split(sep)] for a separator of one character, and [re.split] on a
    character class: the string is cut at every separator; a piece may be
    empty and there is always at least one piece. *)
Fixpoint split_at (sep : char → bool) (s : str) : list str :=
  match s with
  | [] => [[]]
  | c :: s' =>
      if sep c then [] :: split_at sep s'
      else match split_at sep s' with
           | piece :: pieces => (c :: piece) :: pieces
           | [] => [[c]]
           end
  end.

(** [sep.join(pieces)] *)
Fixpoint join (sep : str) (pieces : list str) : str :=
  match pieces with
  | [] => []
  | [piece] => piece
  | piece :: pieces' => piece ++ sep ++ join sep pieces'
  end.

Definition starts_with (P : char → bool) (s : str) : bool :=
  match s with
  | c :: _ => P c
  | [] => false
  end.

Fixpoint take_while (P : char → bool) (s : str) : str :=
  match s with
  | c :: s' => if P c then c :: take_while P s' else []
  | [] => []
  end.

Fixpoint drop_while (P : char → bool) (s : str) : str :=
  match s with
  | c :: s' => if P c then drop_while P s' else s
  | [] => []
  end.

Definition cons_to_head (c : char) (runs : list str) : list str :=
  match runs with
  | run :: runs' => (c :: run) :: runs'
  | [] => [[c]]
  end.

(** [re.findall] for a pattern [X+] where [X] matches one character of a
    class ([\d+], [\w+]): the maximal runs of characters of the class, from
    left to right. *)
Fixpoint findall_runs (P : char → bool) (s : str) : list str :=
  match s with
  | [] => []
  | c :: s' =>
      if P c
      then if starts_with P s' then cons_to_head c (findall_runs P s')
           else [c] :: findall_runs P s'
      else findall_runs P s'
  end.

(** [re.findall] for a pattern [H\w+] where [H] is a character class
    ([[A-Z]\w+], [[A-Z|Ü]\w+]): a match starts at a character of [H] that a
    word character follows and takes the whole run of word characters; the
    search goes on behind the match.  [inside] tells that the characters at
    hand still belong to the match found last. *)
Fixpoint findall_head_word (head word : char → bool) (inside : bool) (s : str)
    : list str :=
  match s with
  | [] => []
  | c :: s' =>
      if inside && word c then findall_head_word head word true s'
      else if head c && starts_with word s'
      then (c :: take_while word s') :: findall_head_word head word true s'
      else findall_head_word head word false s'
  end.

(** The class [[A-Z]] and the class [[A-Z|Ü]] of [capital_words]. *)
Definition is_capital_or_bar (c : char) : bool :=
  ascii_isupper c || (c =? 124)%N || (c =? 220)%N.




(** [re.sub(pattern, '', l)] for
    [pattern = "^\[(.*?)\]$|^[A-Z]{2,}.*|^Enter.*$"].  Every alternative is
    tied to the start of the string, [.] stops at a line break and [$] holds
    at the end of the string or before a line break that ends it.  A match
    therefore covers the first line of [l]; what is left is the rest of [l]
    from its first line break on. *)
Definition first_line (l : str) : str := take_while (λ c, negb (is_newline c)) l.
Definition after_first_line (l : str) : str := drop_while (λ c, negb (is_newline c)) l.

Definition ends_string (rest : str) : bool :=
  match rest with
  | [] => true
  | [c] => is_newline c
  | _ => false
  end.

(** [^\[(.*?)\]$] *)
Definition is_stage_direction (l : str) : bool :=
  match first_line l with
  | c :: body =>
      (c =? 91)%N
      && match last body with Some c' => (c' =? 93)%N | None => false end
      && ends_string (after_first_line l)
  | [] => false
  end.

(** [^[A-Z]{2,}.*] *)
Definition is_speaker_label (l : str) : bool :=
  match l with
  | c1 :: c2 :: _ => ascii_isupper c1 && ascii_isupper c2
  | _ => false
  end.

(** [^Enter.*$] *)
Definition is_entrance (l : str) : bool :=
  bool_decide (take 5 l = lit "Enter") && ends_string (after_first_line l).

Definition is_prompt (l : str) : bool :=
  is_stage_direction l || is_speaker_label l || is_entrance l.

Definition remove_prompt (l : str) : str :=
  if is_prompt l then after_first_line l else l.

(** [lines = troilus.split("\n")], [lines = [re.sub(pattern, '', l) for l in
    lines]] and [troilus_body = '\n'.join(lines)] of In[18]. *)
Definition cleaned_lines (troilus : str) : list str :=
  remove_prompt <$> split_at is_newline troilus.

Definition troilus_body (troilus : str) : str :=
  join [newline] (cleaned_lines troilus).

(** [\w] on ASCII; outside ASCII the class is read from the character
    table. *)
Definition ascii_isdigit (c : char) : bool := ((48 <=? c) && (c <=? 57))%N.

Definition is_word (ucd_isword : char → bool) (c : char) : bool :=
  if is_ascii c then ascii_isalpha c || ascii_isdigit c || (c =? 95)%N
  else ucd_isword c.

(** [tokenized_lines] and [line_num_words] of In[15], on the lines of
    In[14]. *)
Definition line_num_words (ucd_isword : char → bool) (troilus : str) : list nat :=
  (λ s, length (findall_runs (is_word ucd_isword) s)) <$> cleaned_lines troilus.

(** *** The article loop and the queries on the corpus
    (In[22], In[24] to In[26]) *)

(** The loop of In[22]: one token list per response.  [extract_text] stands
    for the extraction of the paragraph texts from the page by
    BeautifulSoup. *)
Definition articles_of (U : unicode_db) (L : nltk) (extract_text : str → str)
    (responses : list Response) : list (list str) :=
  (λ r, lemmatized U L english_stops (extract_text (text r))) <$> responses.

(** [l[i]] for an index that is not negative: [None] stands for the
    [IndexError] of an index past the end. *)
Definition getitem {A} (l : list A) (i : nat) : option A := l !! i.

(** [corpus[3][:10]] of In[24]; a slice never fails. *)
Definition first_ids_of_fourth (corpus : list (list (nat * nat))) : option (list (nat * nat)) :=
  take 10 <$> getitem corpus 3.

(** [bow_doc = sorted(doc, key=lambda w: w[1], reverse=True)] of In[25]. *)
Definition bow_doc (doc : list (nat * nat)) : list (nat * nat) :=
  sorted by_count_desc doc.

(** [dict(items)]: the items are bound in order. *)
Definition dict_of_items {K V} `{EqDecision K} (items : list (K * V)) : dict K V :=
  foldl (λ d kv, dict_set d kv.1 kv.2) [] items.

(** [w2cSorted] of In[26]. *)
Definition w2cSorted (total_word_count : dict nat nat) : dict nat nat :=
  dict_of_items (take 10 (sorted by_count_desc total_word_count)).

(** *** Sample library behaviour for the worked examples

    The examples below run the pipeline on concrete inputs.  They use a
    tokenizer that splits on blanks and line breaks, which agrees with
    [word_tokenize] on the texts of the examples (plain words that NLTK does
    not split any further, separated by single blanks; it is no model of
    [word_tokenize] beyond them),
    a lemmatizer that knows the WordNet entry [arts -> art] and returns every
    other word unchanged, and a character table that knows one code point
    outside ASCII, U+1D400 (MATHEMATICAL BOLD CAPITAL A: category Lu,
    alphabetic, upper case, no lower-case mapping); the examples use no
    other. *)

Definition math_bold_capital_a : char := 0x1D400%N.

Definition sample_ucd : unicode_db := {|
  ucd_isalpha c := (c =? math_bold_capital_a)%N;
  ucd_lower_at _ _ c := [c];
  ucd_islower _ := false;
  ucd_isupper c := (c =? math_bold_capital_a)%N
|}.

Definition is_blank (c : char) : bool := (c =? 32)%N || (c =? 10)%N.

Fixpoint split_blanks (word : str) (text : str) : list str :=
  match text with
  | [] => match word with [] => [] | _ => [reverse word] end
  | c :: text' =>
      if is_blank c
      then match word with
           | [] => split_blanks [] text'
           | _ => reverse word :: split_blanks [] text'
           end
      else split_blanks (c :: word) text'
  end.

Definition sample_nltk : nltk := {|
  word_tokenize text := split_blanks [] text;
  lemmatize t := if decide (t = lit "arts") then lit "art" else t
|}.

(** A network on which two of the twelve pages cannot be had: one host is
    unreachable, one page answers 404.  Every other page answers 200. *)
Definition sample_network (url : string) : result Response :=
  if decide (url = "https://en.wikipedia.org/wiki/Net_Promoter"%string)
  then Raise {| exc_type := requests_ConnectionError; exc_arg := "" |}
  else if decide (url = "https://en.wikipedia.org/wiki/Benchmarking"%string)
  then Return {| status_code := 404; text := [] |}
  else Return {| status_code := 200; text := lit "<p>revenue</p>" |}.

(** ** Part II: properties *)

(** Closed decidable facts are settled by evaluating their decision
    procedure. *)
Ltac decide_by_evaluation :=
  apply (bool_decide_unpack _); vm_compute; exact I.

Example earlymodern_apostrophe_entries :
  filter (λ w, apostrophe ∈ w) troilus_stops
  = lit <$> ["'ere"; "should'st"; "'tis"; "'twas"; "would'st"]%string.
Proof. vm_compute. reflexivity. Qed.

(** *** Characters and strings *)

Lemma apostrophe_not_alpha U : isalpha_cp U apostrophe = false.
Proof. reflexivity. Qed.

Lemma isalpha_nonempty U t : isalpha U t = true → t ≠ [].
Proof. by destruct t. Qed.

Lemma isalpha_Forall U t : isalpha U t → Forall (λ c, isalpha_cp U c) t.
Proof. destruct t; [done|]. unfold isalpha. by rewrite forallb_True. Qed.

Lemma isalpha_rejects U t c : c ∈ t → isalpha_cp U c = false → isalpha U t = false.
Proof.
  intros Hc Hf. destruct (isalpha U t) eqn:E; [|done].
  apply Is_true_true, isalpha_Forall in E.
  rewrite Forall_forall in E. specialize (E c Hc). by rewrite Hf in E.
Qed.

Lemma isalpha_no_apostrophe U t : isalpha U t → apostrophe ∉ t.
Proof.
  intros Ht Hin. apply Is_true_true in Ht.
  by rewrite (isalpha_rejects U t apostrophe Hin) in Ht.
Qed.

Lemma ascii_tolower_not_upper c :
  ascii_isalpha (ascii_tolower c) → ascii_islower (ascii_tolower c).
Proof.
  unfold ascii_isalpha, ascii_tolower, ascii_islower, ascii_isupper.
  destruct (N.leb_spec 65 c), (N.leb_spec c 90); simpl;
    rewrite ?orb_True, ?andb_True, ?Is_true_true, ?N.leb_le; lia.
Qed.

Lemma ascii_tolower_is_ascii c : is_ascii c → is_ascii (ascii_tolower c).
Proof.
  unfold is_ascii, ascii_tolower, ascii_isupper.
  destruct (N.leb_spec 65 c), (N.leb_spec c 90); simpl;
    rewrite ?Is_true_true, ?N.ltb_lt; lia.
Qed.

Lemma mjoin_singletons {A B} (f : A → B) (l : list A) :
  mjoin ((λ x, [f x]) <$> l) = f <$> l.
Proof. induction l as [|x l IH]; csimpl; [done|]. by rewrite IH. Qed.

(** On an ASCII string [lower] is the character-wise ASCII mapping (the
    fast path CPython takes for such strings). *)
Lemma lower_ascii U s :
  Forall (λ c, is_ascii c) s → lower U s = ascii_tolower <$> s.
Proof.
  intros Hs. unfold lower.
  rewrite (imap_ext _ (λ _ c, [ascii_tolower c])).
  - by rewrite (imap_const (λ c, [ascii_tolower c])), mjoin_singletons.
  - intros i c Hi. unfold lower_at.
    rewrite Forall_lookup in Hs. specialize (Hs i c Hi).
    by destruct (is_ascii c).
Qed.

(** *** The normaliser *)

Section normalizer_facts.
Context (U : unicode_db) (L : nltk).
Implicit Types (stops : list str) (text t : str).

Lemma no_stops_spec stops text t :
  t ∈ no_stops U L stops text ↔
  (t ∉ stops) ∧ isalpha U t ∧ (∃ s, s ∈ word_tokenize L text ∧ t = lower U s).
Proof.
  unfold no_stops, alpha_only, lower_tokens.
  rewrite !list_elem_of_filter, list_elem_of_fmap.
  split.
  - intros (? & ? & s & -> & ?). eauto.
  - intros (? & ? & s & ? & ->). eauto.
Qed.

Lemma no_stops_sublist stops text :
  no_stops U L stops text `sublist_of` alpha_only U L text.
Proof. apply sublist_filter. Qed.

Lemma lemmatized_as_filter_map stops text :
  lemmatized U L stops text
  = (λ s, lemmatize L (lower U s))
      <$> filter (survives U stops) (word_tokenize L text).
Proof.
  unfold lemmatized, no_stops, alpha_only, lower_tokens.
  induction (word_tokenize L text) as [|s l IH]; [done|].
  rewrite fmap_cons, !filter_cons.
  destruct (decide (isalpha U (lower U s))) as [Ha|Ha].
  - rewrite filter_cons.
    destruct (decide (lower U s ∉ stops)) as [Hs|Hs].
    + rewrite decide_True by done. rewrite !fmap_cons. by f_equal.
    + rewrite decide_False by (intros [_ ?]; done). done.
  - rewrite decide_False by (intros [? _]; done). done.
Qed.
End normalizer_facts.

(** *** Claims about the normaliser *)

(** C3, as stated, fails: the stop-word filter runs before the lemmatizer,
    and WordNet lemmatizes the plural "arts", which is no stop word, to the
    stop word "art".  The lemmatized list for "liberal arts" contains it. *)
Lemma lemma_reintroduces_stop_word :
  lit "art" ∈ troilus_stops ∧
  lemmatized sample_ucd sample_nltk troilus_stops (lit "liberal arts")
    = [lit "liberal"; lit "art"] ∧
  ¬ (∀ text t, t ∈ troilus_stops →
       t ∉ lemmatized sample_ucd sample_nltk troilus_stops text).
Proof.
  assert (H1 : lit "art" ∈ troilus_stops)
    by decide_by_evaluation.
  assert (H2 : lemmatized sample_ucd sample_nltk troilus_stops (lit "liberal arts")
               = [lit "liberal"; lit "art"]) by (vm_compute; reflexivity).
  split_and!; [done..|].
  intros H. apply (H (lit "liberal arts") (lit "art") H1).
  rewrite H2. apply list_elem_of_further, list_elem_of_here.
Qed.

(** C3 (amended): a word of the stop list never occurs in [no_stops], the
    sequence handed to the lemmatizer, whatever the letter case of the raw
    tokens (the filter reads their lower-cased forms); and it can occur in the
    lemmatized list only as the lemma of a surviving token that is itself
    no stop word. *)
Theorem stop_words_absent_before_lemmatizing U L text t :
  t ∈ troilus_stops →
  (t ∉ no_stops U L troilus_stops text) ∧
  (∀ s, s ∈ word_tokenize L text → lower U s = t →
        lower U s ∉ no_stops U L troilus_stops text) ∧
  (t ∈ lemmatized U L troilus_stops text →
   ∃ u, u ∈ no_stops U L troilus_stops text ∧ (u ∉ troilus_stops) ∧
        lemmatize L u = t).
Proof.
  intros Ht.
  assert (Hn : t ∉ no_stops U L troilus_stops text).
  { rewrite no_stops_spec. tauto. }
  split_and!; [done| |].
  - intros s _ ->. done.
  - unfold lemmatized. rewrite list_elem_of_fmap.
    intros (u & -> & Hu). exists u. split_and!; [done| |done].
    apply no_stops_spec in Hu. tauto.
Qed.

Lemma stop_words_absent_before_lemmatizing_witness :
  lit "the" ∈ troilus_stops ∧
  lit "the" ∉ no_stops sample_ucd sample_nltk troilus_stops (lit "The THE the arts").
Proof.
  assert (H : lit "the" ∈ troilus_stops)
    by decide_by_evaluation.
  split; [exact H|].
  exact (proj1 (stop_words_absent_before_lemmatizing
                  sample_ucd sample_nltk (lit "The THE the arts") (lit "the") H)).
Defined.

(** C8: the lemmatized list is the image, token by token, of the raw tokens
    that survive the filters, taken in their original order: nothing is
    reordered, removed items are simply missing. *)
Theorem normalizer_preserves_token_order U L stops text :
  ∃ kept,
    kept `sublist_of` word_tokenize L text ∧
    kept = filter (survives U stops) (word_tokenize L text) ∧
    no_stops U L stops text = lower U <$> kept ∧
    lemmatized U L stops text = (λ s, lemmatize L (lower U s)) <$> kept.
Proof.
  exists (filter (survives U stops) (word_tokenize L text)).
  split_and!; [apply sublist_filter|done| |apply lemmatized_as_filter_map].
  pose proof (lemmatized_as_filter_map U {| word_tokenize := word_tokenize L;
                                           lemmatize := id |} stops text) as H.
  unfold lemmatized in H. simpl in H. rewrite list_fmap_id in H. exact H.
Qed.

(** C9, as stated, fails outside ASCII: [str.lower] leaves a letter without
    a lower-case mapping alone and [str.isalpha] accepts it.  U+1D400 is an
    upper-case letter (category Lu) of that kind, so the token made of it
    reaches the lemmatizer unchanged. *)
Lemma uppercase_letter_reaches_lemmatizer :
  no_stops sample_ucd sample_nltk troilus_stops [math_bold_capital_a]
    = [[math_bold_capital_a]] ∧
  isupper_cp sample_ucd math_bold_capital_a = true ∧
  ¬ (∀ text t, t ∈ no_stops sample_ucd sample_nltk troilus_stops text →
       t ≠ [] ∧
       Forall (λ c, isalpha_cp sample_ucd c ∧ islower_cp sample_ucd c) t).
Proof.
  assert (H : no_stops sample_ucd sample_nltk troilus_stops [math_bold_capital_a]
              = [[math_bold_capital_a]]) by (vm_compute; reflexivity).
  split_and!; [done..|].
  intros Hc.
  destruct (Hc [math_bold_capital_a] [math_bold_capital_a]) as [_ Hall].
  { rewrite H. apply list_elem_of_here. }
  apply Forall_inv in Hall. destruct Hall as [_ Hl]. exact Hl.
Qed.

(** C9 (amended): every token handed to the lemmatizer is non-empty, is made
    of alphabetic characters only, and is the lower-cased form of a raw
    token, so that a token coming from ASCII text consists of the letters
    a to z; the alphabetic filter rejects the empty string and every token
    with an ASCII character that is no letter (digit, punctuation mark,
    apostrophe); stop-word removal only deletes elements. *)
Theorem no_stops_tokens_alphabetic U L stops text t :
  t ∈ no_stops U L stops text →
  t ≠ [] ∧
  Forall (λ c, isalpha_cp U c) t ∧
  (∃ s, s ∈ word_tokenize L text ∧ t = lower U s ∧
        (Forall (λ c, is_ascii c) s → Forall (λ c, ascii_islower c) t)) ∧
  isalpha U [] = false ∧
  (∀ w c, c ∈ w → is_ascii c → ¬ ascii_isalpha c → isalpha U w = false) ∧
  no_stops U L stops text `sublist_of` alpha_only U L text.
Proof.
  rewrite no_stops_spec. intros (_ & Ha & s & Hs & ->).
  split_and!.
  - apply (isalpha_nonempty U). by apply Is_true_true.
  - by apply isalpha_Forall.
  - exists s. split_and!; [done..|].
    intros Hascii. apply isalpha_Forall in Ha.
    rewrite lower_ascii in Ha |- * by done.
    rewrite Forall_fmap in Ha |- *.
    rewrite Forall_forall in Ha, Hascii |- *.
    intros c Hc. specialize (Ha c Hc). specialize (Hascii c Hc). simpl in *.
    apply ascii_tolower_not_upper.
    unfold isalpha_cp in Ha.
    by rewrite (Is_true_true_1 _ (ascii_tolower_is_ascii c Hascii)) in Ha.
  - done.
  - intros w c Hc Hascii Hna. apply (isalpha_rejects U w c Hc).
    unfold isalpha_cp. rewrite (Is_true_true_1 _ Hascii).
    by apply negb_True, Is_true_true in Hna; rewrite negb_true_iff in Hna.
  - apply no_stops_sublist.
Qed.

Lemma no_stops_tokens_alphabetic_witness :
  lit "liberal" ∈ no_stops sample_ucd sample_nltk troilus_stops
                    (lit "The Liberal arts of 1602") ∧
  Forall (λ c, isalpha_cp sample_ucd c) (lit "liberal").
Proof.
  assert (H : lit "liberal" ∈ no_stops sample_ucd sample_nltk troilus_stops
                               (lit "The Liberal arts of 1602"))
    by decide_by_evaluation.
  split; [exact H|].
  exact (proj1 (proj2 (no_stops_tokens_alphabetic
                         sample_ucd sample_nltk troilus_stops
                         (lit "The Liberal arts of 1602") (lit "liberal") H))).
Defined.

Lemma no_stops_without_apostrophes U L stops text :
  no_stops U L stops text = no_stops U L (without_apostrophes stops) text.
Proof.
  unfold no_stops, alpha_only. rewrite !list_filter_filter.
  apply list_filter_iff. intros t. unfold without_apostrophes.
  rewrite list_elem_of_filter. split.
  - intros [Hn Ha]. split; [|done]. intros [_ ?]. done.
  - intros [Hn Ha]. split; [|done]. intros Hin. apply Hn.
    split; [|done]. by apply (isalpha_no_apostrophe U).
Qed.

(** C10: an entry of the stop list that contains an apostrophe can never
    equal a token that passed the alphabetic filter, so the pipeline gives
    the same no_stops and lemmatized sequences with those entries
    ('ere, should'st, 'tis, 'twas, would'st) taken out of the list. *)
Theorem apostrophe_stop_words_never_match U L text :
  without_apostrophes troilus_stops
    = filter (λ w, w ∉ (lit <$> ["'ere"; "should'st"; "'tis"; "'twas";
                                 "would'st"]%string)) troilus_stops ∧
  no_stops U L troilus_stops text
    = no_stops U L (without_apostrophes troilus_stops) text ∧
  lemmatized U L troilus_stops text
    = lemmatized U L (without_apostrophes troilus_stops) text.
Proof.
  split_and!.
  - vm_compute. reflexivity.
  - apply no_stops_without_apostrophes.
  - unfold lemmatized. by rewrite <- no_stops_without_apostrophes.
Qed.

(** *** The download loop *)

Lemma except_clauses_unbound_name e :
  except_clauses ["HTTPError"; "Exception"]%string e = Raise name_error_HTTPError.
Proof.
  unfold except_clauses.
  replace (load_exception_class "HTTPError") with (@Raise exc_class name_error_HTTPError)
    by (vm_compute; reflexivity).
  reflexivity.
Qed.

Lemma raise_for_status_client_or_server_error r :
  (400 ≤ status_code r < 600)%Z →
  raise_for_status r = Raise {| exc_type := requests_HTTPError; exc_arg := "" |}.
Proof.
  intros [H1 H2]. unfold raise_for_status.
  apply Z.leb_le in H1. apply Z.ltb_lt in H2. by rewrite H1, H2.
Qed.

Lemma download_cons get u us rs :
  download get (u :: us) rs =
  match try_get get u with
  | Return r => download get us (rs ++ [r])
  | Raise e =>
      match except_clauses ["HTTPError"; "Exception"]%string e with
      | Return _ => download get us rs
      | Raise e' => Raise e'
      end
  end.
Proof. reflexivity. Qed.

(** As long as every page is fetched the loop appends one response per
    URL. *)
Lemma download_all_fetched get us rs :
  (∀ u, u ∈ us → ∃ r, try_get get u = Return r) →
  ∃ rs', download get us rs = Return (rs ++ rs') ∧ length rs' = length us.
Proof.
  revert rs. induction us as [|u us IH]; intros rs Hok; simpl.
  - exists []. by rewrite app_nil_r.
  - destruct (Hok u) as [r Hr]; [apply list_elem_of_here|]. rewrite Hr.
    destruct (IH (rs ++ [r])) as (rs' & -> & Hlen).
    { intros u' Hu'. apply Hok. by apply list_elem_of_further. }
    exists (r :: rs'). rewrite <- app_assoc. simpl. by rewrite Hlen.
Qed.

(** The first failure ends the loop with a [NameError]. *)
Lemma download_first_failure get us rs u e :
  u ∈ us → try_get get u = Raise e →
  download get us rs = Raise name_error_HTTPError.
Proof.
  intros Hu He. revert rs.
  induction us as [|u' us IH]; intros rs; [by apply elem_of_nil in Hu|].
  rewrite download_cons. destruct (try_get get u') as [r|e'] eqn:E.
  - apply IH. apply elem_of_cons in Hu as [->|Hu]; [congruence|done].
  - by rewrite except_clauses_unbound_name.
Qed.

(** C1: on twelve sources of which two fail (one unreachable, one answering
    404) the loop does not skip the failing source: evaluating the first
    [except] clause raises [NameError] for the unbound name [HTTPError],
    which leaves the loop; no list of ten responses is produced. *)
Theorem download_aborts_on_failed_source :
  length urls = 12 ∧
  length (filter (λ u, is_Return (try_get sample_network u)) urls) = 10 ∧
  download sample_network urls [] = Raise name_error_HTTPError ∧
  ¬ (∃ responses, download sample_network urls [] = Return responses).
Proof.
  assert (H : download sample_network urls [] = Raise name_error_HTTPError)
    by (vm_compute; reflexivity).
  split_and!; [done| |done|].
  - vm_compute. reflexivity.
  - intros [rs Hrs]. congruence.
Qed.

(** *** Dictionaries *)

Section dict_facts.
Context {K V : Type} `{EqDecision K}.
Implicit Types (d : dict K V) (k : K) (v : V).

Lemma dict_get_set d k v k' :
  dict_get (dict_set d k v) k' = if decide (k = k') then Some v else dict_get d k'.
Proof.
  induction d as [|[k0 v0] d IH]; simpl.
  - done.
  - destruct (decide (k0 = k)) as [->|Hne]; simpl.
    + repeat case_decide; congruence.
    + rewrite IH. repeat case_decide; congruence.
Qed.

Lemma dict_get_None d k : dict_get d k = None ↔ k ∉ dict_keys d.
Proof.
  unfold dict_keys. induction d as [|[k0 v0] d IH]; simpl.
  - split; [intros _; apply not_elem_of_nil|done].
  - rewrite not_elem_of_cons. case_decide.
    + split; [done|]. intros [Hne _]. by subst.
    + rewrite IH. split; [by intros ?; split; [congruence|]|by intros [_ ?]].
Qed.

Lemma dict_get_Some_elem d k v : dict_get d k = Some v → (k, v) ∈ d.
Proof.
  induction d as [|[k0 v0] d IH]; simpl; [done|].
  case_decide; intros Hg.
  - simplify_eq. apply list_elem_of_here.
  - apply list_elem_of_further. auto.
Qed.

Lemma dict_get_elem d k v : NoDup (dict_keys d) → (k, v) ∈ d → dict_get d k = Some v.
Proof.
  unfold dict_keys. induction d as [|[k0 v0] d IH]; simpl.
  - intros _ Hin. by apply elem_of_nil in Hin.
  - rewrite NoDup_cons. intros [Hk0 Hnd] Hin.
    apply elem_of_cons in Hin as [Heq|Hin].
    + simplify_eq. by rewrite decide_True.
    + rewrite decide_False; [auto|].
      intros ->. apply Hk0. apply list_elem_of_fmap. by exists (k, v).
Qed.

Lemma dict_get_is_Some d k : is_Some (dict_get d k) ↔ k ∈ dict_keys d.
Proof.
  rewrite <- not_eq_None_Some, dict_get_None.
  split; [apply dec_stable|auto].
Qed.

Lemma dict_set_absent d k v : k ∉ dict_keys d → dict_set d k v = d ++ [(k, v)].
Proof.
  unfold dict_keys. induction d as [|[k0 v0] d IH]; simpl; [done|].
  rewrite not_elem_of_cons. intros [Hne Hk].
  rewrite decide_False by done. by rewrite IH.
Qed.

Lemma dict_keys_set_present d k v :
  k ∈ dict_keys d → dict_keys (dict_set d k v) = dict_keys d.
Proof.
  unfold dict_keys. induction d as [|[k0 v0] d IH]; simpl.
  - intros Hin. by apply elem_of_nil in Hin.
  - intros Hin. case_decide; simplify_eq; simpl; [done|].
    f_equal. apply IH. apply elem_of_cons in Hin as [?|?]; [congruence|done].
Qed.

Lemma dict_keys_set d k v :
  dict_keys (dict_set d k v)
  = if decide (k ∈ dict_keys d) then dict_keys d else dict_keys d ++ [k].
Proof.
  case_decide.
  - by apply dict_keys_set_present.
  - rewrite dict_set_absent by done. unfold dict_keys. by rewrite fmap_app.
Qed.

Lemma dict_set_NoDup d k v : NoDup (dict_keys d) → NoDup (dict_keys (dict_set d k v)).
Proof.
  intros Hnd. rewrite dict_keys_set. case_decide; [done|].
  apply NoDup_app. split_and!; [done| |apply NoDup_singleton].
  intros x Hx Hx'. apply list_elem_of_singleton in Hx'. by subst.
Qed.

Lemma dict_elem_key d k v : (k, v) ∈ d → k ∈ dict_keys d.
Proof. intros Hin. apply list_elem_of_fmap. by exists (k, v). Qed.

(** Two dictionaries with the same items read the same. *)
Lemma dict_get_perm d d' k :
  NoDup (dict_keys d) → d ≡ₚ d' → dict_get d k = dict_get d' k.
Proof.
  intros Hnd Hp.
  assert (Hnd' : NoDup (dict_keys d')).
  { unfold dict_keys. by rewrite <- Hp. }
  destruct (dict_get d k) as [v|] eqn:E.
  - symmetry. apply dict_get_elem; [done|]. rewrite <- Hp.
    by apply dict_get_Some_elem.
  - symmetry. apply dict_get_None. apply dict_get_None in E.
    unfold dict_keys in *. by rewrite <- Hp.
Qed.
End dict_facts.

(** *** Sorting *)

Section sorted_facts.
Context {A : Type} (lt : A → A → bool).
Implicit Types (x y : A) (l : list A).

Lemma insert_sorted_perm x l : insert_sorted lt x l ≡ₚ x :: l.
Proof.
  induction l as [|y l IH]; simpl; [done|].
  destruct (lt y x); [|done]. rewrite IH. apply Permutation_swap.
Qed.

Lemma sorted_perm l : sorted lt l ≡ₚ l.
Proof.
  induction l as [|x l IH]; simpl; [done|].
  by rewrite insert_sorted_perm, IH.
Qed.

(** Stability: elements that the comparison does not separate keep their
    relative order. *)
Lemma insert_sorted_filter (P : A → Prop) `{!∀ x, Decision (P x)} x l :
  (∀ y, P x → P y → lt y x = false) →
  filter P (insert_sorted lt x l) = filter P (x :: l).
Proof.
  intros Hsep. induction l as [|y l IH]; simpl; [done|].
  destruct (lt y x) eqn:E; [|done].
  rewrite filter_cons, IH, !filter_cons.
  destruct (decide (P y)) as [Hy|Hy]; [|done].
  destruct (decide (P x)) as [Hx|Hx]; [|done].
  rewrite Hsep in E; done.
Qed.

Lemma sorted_stable (P : A → Prop) `{!∀ x, Decision (P x)} l :
  (∀ x y, P x → P y → lt y x = false) →
  filter P (sorted lt l) = filter P l.
Proof.
  intros Hsep. induction l as [|x l IH]; simpl; [done|].
  rewrite insert_sorted_filter by auto.
  by rewrite !filter_cons, IH.
Qed.

(** Order: under an asymmetric comparison whose complement is transitive
    no element is followed by a smaller one. *)
Context (lt_asym : ∀ x y, lt x y = true → lt y x = false).
Context (le_trans : ∀ x y z, may_precede lt x y → may_precede lt y z → may_precede lt x z).

Lemma insert_sorted_ordered x l :
  StronglySorted (may_precede lt) l → StronglySorted (may_precede lt) (insert_sorted lt x l).
Proof.
  induction 1 as [|y l Hl IH Hy]; simpl.
  - repeat constructor.
  - destruct (lt y x) eqn:E.
    + constructor; [done|].
      rewrite Forall_forall. intros z Hz.
      rewrite insert_sorted_perm in Hz.
      apply elem_of_cons in Hz as [->|Hz].
      * by apply lt_asym.
      * rewrite Forall_forall in Hy. auto.
    + constructor; [by constructor|].
      constructor; [done|].
      rewrite Forall_forall in Hy |- *. intros z Hz.
      apply (le_trans x y z); auto.
Qed.

Lemma sorted_ordered l : StronglySorted (may_precede lt) (sorted lt l).
Proof.
  induction l as [|x l IH]; simpl; [constructor|].
  by apply insert_sorted_ordered.
Qed.
End sorted_facts.

Lemma StronglySorted_lookup {A} (R : A → A → Prop) (l : list A) i j a b :
  StronglySorted R l → i < j → l !! i = Some a → l !! j = Some b → R a b.
Proof.
  intros Hs. revert i j. induction Hs as [|x l Hl IH Hx]; intros i j Hij Hi Hj.
  - done.
  - destruct j as [|j]; [lia|]. simpl in Hj. destruct i as [|i]; simpl in Hi.
    + simplify_eq. rewrite Forall_forall in Hx. apply Hx.
      by eapply list_elem_of_lookup_2.
    + apply (IH i j); [lia|done..].
Qed.

(** *** Sublists *)

Lemma sublist_filter_mono {A} (P : A → Prop) `{!∀ x, Decision (P x)} (l1 l2 : list A) :
  l1 `sublist_of` l2 → filter P l1 `sublist_of` filter P l2.
Proof.
  induction 1 as [|x l1 l2 _ IH|x l1 l2 _ IH]; [done| |].
  - rewrite !filter_cons. case_decide; [by constructor|done].
  - rewrite filter_cons. case_decide; [by constructor|done].
Qed.

Lemma sublist_pair_lookup {A} (l : list A) i j a b :
  i < j → l !! i = Some a → l !! j = Some b → [a; b] `sublist_of` l.
Proof.
  revert i j. induction l as [|x l IH]; intros i j Hij Hi Hj; [done|].
  destruct j as [|j]; [lia|]. simpl in Hj. destruct i as [|i]; simpl in Hi.
  - simplify_eq. constructor. apply singleton_sublist_l.
    by eapply list_elem_of_lookup_2.
  - constructor. apply (IH i j); [lia|done..].
Qed.

(** *** Counting *)

Section counting_facts.
Context {K : Type} `{EqDecision K}.
Implicit Types (l : list K) (k : K).

Lemma occurrences_snoc k l x :
  occurrences k (l ++ [x]) = occurrences k l + (if decide (x = k) then 1 else 0).
Proof.
  unfold occurrences. rewrite filter_app, length_app, filter_cons, filter_nil.
  by case_decide.
Qed.

Lemma occurrences_absent k l : k ∉ l → occurrences k l = 0.
Proof.
  unfold occurrences. induction l as [|x l IH]; [done|].
  rewrite not_elem_of_cons. intros [Hne Hk].
  rewrite filter_cons, decide_False by done. auto.
Qed.

Lemma first_index_is_Some k l : k ∈ l → ∃ i, first_index k l = Some i ∧ i < length l.
Proof.
  induction l as [|x l IH]; simpl.
  - intros Hin. by apply elem_of_nil in Hin.
  - intros Hin. case_decide.
    + exists 0. split; [done|lia].
    + destruct IH as (i & -> & Hi).
      { apply elem_of_cons in Hin as [?|?]; [congruence|done]. }
      exists (S i). split; [done|lia].
Qed.

Lemma first_index_app_l k l l' i :
  first_index k l = Some i → first_index k (l ++ l') = Some i.
Proof.
  revert i. induction l as [|x l IH]; intros i; simpl; [done|].
  case_decide; [done|].
  destruct (first_index k l) as [i'|]; simpl; [|done].
  intros. by rewrite (IH i').
Qed.

Lemma first_index_snoc_new k l : k ∉ l → first_index k (l ++ [k]) = Some (length l).
Proof.
  induction l as [|x l IH]; simpl.
  - intros _. by rewrite decide_True.
  - rewrite not_elem_of_cons. intros [Hne Hk].
    rewrite decide_False by done. by rewrite IH.
Qed.

Lemma count_elements_snoc l x :
  count_elements (l ++ [x])
  = dict_set (count_elements l) x (default 0 (dict_get (count_elements l) x) + 1).
Proof. unfold count_elements. by rewrite foldl_snoc. Qed.

(** Every element is counted as often as it occurs. *)
Lemma count_elements_get l k :
  dict_get (count_elements l) k
  = if decide (k ∈ l) then Some (occurrences k l) else None.
Proof.
  induction l as [|x l IH] using rev_ind.
  - by rewrite decide_False by apply not_elem_of_nil.
  - rewrite count_elements_snoc, dict_get_set, occurrences_snoc.
    destruct (decide (x = k)) as [->|Hne].
    + rewrite decide_True by (apply elem_of_app; right; apply list_elem_of_here).
      rewrite IH. case_decide; simpl; [done|].
      by rewrite occurrences_absent.
    + rewrite IH, Nat.add_0_r. apply decide_ext.
      rewrite elem_of_app, list_elem_of_singleton.
      split; [auto|]. intros [?|?]; [done|congruence].
Qed.

Lemma count_elements_keys_elem l k : k ∈ dict_keys (count_elements l) ↔ k ∈ l.
Proof.
  rewrite <- dict_get_is_Some, count_elements_get.
  case_decide.
  - split; [done|]. intros _. by eexists.
  - split; [by intros [? ?]|done].
Qed.

Lemma count_elements_keys_snoc l x :
  dict_keys (count_elements (l ++ [x]))
  = if decide (x ∈ l) then dict_keys (count_elements l)
    else dict_keys (count_elements l) ++ [x].
Proof.
  rewrite count_elements_snoc, dict_keys_set.
  apply decide_ext, count_elements_keys_elem.
Qed.

Lemma count_elements_NoDup l : NoDup (dict_keys (count_elements l)).
Proof.
  induction l as [|x l IH] using rev_ind; [constructor|].
  rewrite count_elements_snoc. by apply dict_set_NoDup.
Qed.

Lemma count_elements_elem l k c :
  (k, c) ∈ count_elements l ↔ k ∈ l ∧ c = occurrences k l.
Proof.
  split.
  - intros Hin. apply dict_get_elem in Hin; [|apply count_elements_NoDup].
    rewrite count_elements_get in Hin. case_decide; by simplify_eq.
  - intros [Hk ->]. apply dict_get_Some_elem.
    by rewrite count_elements_get, decide_True.
Qed.

(** The keys stand in the order in which they were first met. *)
Lemma count_elements_first_seen l a b :
  [a; b] `sublist_of` dict_keys (count_elements l) →
  ∃ i j, first_index a l = Some i ∧ first_index b l = Some j ∧ i < j.
Proof.
  induction l as [|x l IH] using rev_ind.
  - intros Hs. apply sublist_length in Hs. simpl in Hs. lia.
  - rewrite count_elements_keys_snoc. case_decide as Hx.
    + intros (i & j & Hi & Hj & Hij)%IH. exists i, j.
      split_and!; [by apply first_index_app_l..|done].
    + intros (l1 & l2 & Heq & H1 & H2)%sublist_app_r.
      destruct l1 as [|a' [|b' [|? ?]]]; simplify_eq/=.
      * apply sublist_length in H2. simpl in H2. lia.
      * apply singleton_sublist_l in H1.
        apply (proj1 (count_elements_keys_elem _ _)) in H1.
        apply singleton_sublist_l, list_elem_of_singleton in H2. subst.
        destruct (first_index_is_Some _ _ H1) as (i & Hi & Hlt).
        exists i, (length l).
        split_and!; [by apply first_index_app_l|by apply first_index_snoc_new|done].
      * destruct (IH H1) as (i & j & Hi & Hj & Hij). exists i, j.
        split_and!; [by apply first_index_app_l..|done].
Qed.
End counting_facts.

(** *** The bag-of-words counters (In[17], In[19]) *)

Section most_common_facts.
Context {K : Type} `{EqDecision K}.
Implicit Types (c : dict K nat) (a b : K * nat).

Lemma by_count_desc_asym a b :
  by_count_desc a b = true → by_count_desc b a = false.
Proof. unfold by_count_desc. rewrite Nat.ltb_lt, Nat.ltb_ge. lia. Qed.

Lemma by_count_desc_trans a b x :
  may_precede by_count_desc a b → may_precede by_count_desc b x →
  may_precede by_count_desc a x.
Proof. unfold may_precede, by_count_desc. rewrite !Nat.ltb_ge. lia. Qed.

Lemma most_common_all c : most_common c (length c) ≡ₚ c.
Proof.
  unfold most_common. rewrite take_ge; [apply sorted_perm|].
  by rewrite (sorted_perm by_count_desc c).
Qed.

Lemma most_common_take c n : most_common c n = take n (most_common c (length c)).
Proof.
  unfold most_common. rewrite (take_ge (sorted _ _) (length c)); [done|].
  by rewrite (sorted_perm by_count_desc c).
Qed.

(** Entries of equal count keep the order they have in the counter. *)
Lemma most_common_order c n i j a b :
  i < j → most_common c n !! i = Some a → most_common c n !! j = Some b →
  b.2 ≤ a.2 ∧ (a.2 = b.2 → [a; b] `sublist_of` c).
Proof.
  unfold most_common. intros Hij [Hi _]%lookup_take_Some [Hj _]%lookup_take_Some.
  split.
  - pose proof (sorted_ordered by_count_desc by_count_desc_asym
                  by_count_desc_trans c) as Hs.
    pose proof (StronglySorted_lookup _ _ i j a b Hs Hij Hi Hj) as Hab.
    unfold may_precede, by_count_desc in Hab. by apply Nat.ltb_ge in Hab.
  - intros Heq.
    pose proof (sublist_pair_lookup _ i j a b Hij Hi Hj) as Hsub.
    apply (sublist_filter_mono (λ x, x.2 = a.2)) in Hsub.
    rewrite sorted_stable in Hsub.
    + rewrite !filter_cons, filter_nil in Hsub.
      rewrite !decide_True in Hsub by done.
      etrans; [exact Hsub|apply sublist_filter].
    + intros x y Hx Hy. unfold by_count_desc. apply Nat.ltb_ge. lia.
Qed.
End most_common_facts.

(** C7: the counter holds, for every distinct token, the number of its
    occurrences; [most_common n] is the first [n] entries of a ranking of
    all entries in which counts never increase and in which, of two entries
    with the same count, the token first met earlier in the input comes
    first. *)
Theorem most_common_ranks_by_count_then_first_seen (tokens : list str) (n : nat) :
  let bow := Counter tokens in
  let ranking := most_common bow n in
  (∀ t c, (t, c) ∈ bow ↔ t ∈ tokens ∧ c = occurrences t tokens) ∧
  (∀ t, Counter_getitem bow t = occurrences t tokens) ∧
  NoDup (dict_keys bow) ∧
  most_common bow (length bow) ≡ₚ bow ∧
  ranking = take n (most_common bow (length bow)) ∧
  (∀ i j a b, i < j → ranking !! i = Some a → ranking !! j = Some b →
     b.2 ≤ a.2 ∧
     (a.2 = b.2 →
      ∃ ia ib, first_index a.1 tokens = Some ia ∧
               first_index b.1 tokens = Some ib ∧ ia < ib)).
Proof.
  intros bow ranking. split_and!.
  - apply count_elements_elem.
  - intros t. unfold Counter_getitem, bow, Counter.
    rewrite count_elements_get. case_decide; [done|].
    by rewrite occurrences_absent.
  - apply count_elements_NoDup.
  - apply most_common_all.
  - apply most_common_take.
  - intros i j a b Hij Hi Hj.
    destruct (most_common_order bow n i j a b Hij Hi Hj) as [Hle Htie].
    split; [done|]. intros Heq.
    apply count_elements_first_seen.
    apply (fmap_sublist fst) in Htie; done.
Qed.

Lemma most_common_ranks_by_count_then_first_seen_witness :
  most_common (Counter (lit <$> ["b"; "a"; "c"; "a"; "b"; "d"]%string)) 3
    = [(lit "b", 2); (lit "a", 2); (lit "c", 1)] ∧
  ∃ ia ib, first_index (lit "b") (lit <$> ["b"; "a"; "c"; "a"; "b"; "d"]%string) = Some ia ∧
           first_index (lit "a") (lit <$> ["b"; "a"; "c"; "a"; "b"; "d"]%string) = Some ib ∧
           ia < ib.
Proof.
  split; [vm_compute; reflexivity|].
  pose proof (most_common_ranks_by_count_then_first_seen
                (lit <$> ["b"; "a"; "c"; "a"; "b"; "d"]%string) 3) as H.
  destruct H as (_ & _ & _ & _ & _ & H).
  exact (proj2 (H 0 1 (lit "b", 2) (lit "a", 2)
                  (le_n 1) eq_refl eq_refl) eq_refl).
Defined.

(** *** Corpus totals *)

Lemma count_sum_snoc k items x :
  count_sum k (items ++ [x]) = count_sum k items + (if decide (x.1 = k) then x.2 else 0).
Proof.
  unfold count_sum. rewrite filter_app, fmap_app, sum_list_with_app.
  rewrite filter_cons, filter_nil. case_decide; simpl; lia.
Qed.

Lemma count_sum_app k items items' :
  count_sum k (items ++ items') = count_sum k items + count_sum k items'.
Proof. unfold count_sum. by rewrite filter_app, fmap_app, sum_list_with_app. Qed.

Lemma count_sum_absent k items : k ∉ items.*1 → count_sum k items = 0.
Proof.
  unfold count_sum. induction items as [|[k0 c] items IH]; [done|].
  rewrite fmap_cons, not_elem_of_cons. simpl. intros [Hne Hk].
  rewrite filter_cons, decide_False by (simpl; congruence). auto.
Qed.

Lemma count_sum_perm k items items' :
  items ≡ₚ items' → count_sum k items = count_sum k items'.
Proof. unfold count_sum. by intros ->. Qed.

Lemma add_word_count_get d k c k' :
  dict_get (add_word_count d (k, c)) k'
  = if decide (k = k') then Some (default 0 (dict_get d k) + c) else dict_get d k'.
Proof.
  unfold add_word_count, defaultdict_getitem. simpl.
  destruct (dict_get d k) as [v|] eqn:E; simpl.
  - rewrite dict_get_set. by case_decide.
  - rewrite !dict_get_set. by case_decide.
Qed.

Lemma add_word_count_NoDup d item :
  NoDup (dict_keys d) → NoDup (dict_keys (add_word_count d item)).
Proof.
  intros Hd. unfold add_word_count, defaultdict_getitem.
  destruct (dict_get d item.1); by repeat apply dict_set_NoDup.
Qed.

Lemma totals_get items k :
  dict_get (foldl add_word_count [] items) k
  = if decide (k ∈ items.*1) then Some (count_sum k items) else None.
Proof.
  induction items as [|[k0 c] items IH] using rev_ind.
  - by rewrite decide_False by apply not_elem_of_nil.
  - rewrite foldl_snoc, add_word_count_get, count_sum_snoc, fmap_app. simpl.
    destruct (decide (k0 = k)) as [->|Hne].
    + rewrite decide_True by (apply elem_of_app; right; apply list_elem_of_here).
      rewrite IH. case_decide; simpl; [done|].
      by rewrite count_sum_absent.
    + rewrite IH, Nat.add_0_r. apply decide_ext.
      rewrite elem_of_app, list_elem_of_singleton.
      split; [auto|]. intros [?|?]; [done|congruence].
Qed.

Lemma totals_NoDup items : NoDup (dict_keys (foldl add_word_count [] items)).
Proof.
  induction items as [|x items IH] using rev_ind; [constructor|].
  rewrite foldl_snoc. by apply add_word_count_NoDup.
Qed.

Lemma total_word_count_get corpus k :
  dict_get (total_word_count corpus) k
  = if decide (k ∈ (mjoin corpus).*1) then Some (count_sum k (mjoin corpus)) else None.
Proof. apply totals_get. Qed.

Lemma dict_perm_of_get (d d' : dict nat nat) :
  NoDup (dict_keys d) → NoDup (dict_keys d') →
  (∀ k, dict_get d k = dict_get d' k) → d ≡ₚ d'.
Proof.
  intros Hd Hd' Hget. apply NoDup_Permutation.
  - by eapply NoDup_fmap_1.
  - by eapply NoDup_fmap_1.
  - intros [k v]. split; intros Hin.
    + apply dict_get_Some_elem. rewrite <- Hget. by apply dict_get_elem.
    + apply dict_get_Some_elem. rewrite Hget. by apply dict_get_elem.
Qed.

Example sample_corpus_totals :
  total_word_count sample_corpus = [(0, 2); (1, 2); (2, 1)].
Proof. reflexivity. Qed.

(** C6: the totals of a corpus and of any rearrangement of its document
    vectors are the same mapping (same keys, same values); each value is
    the sum of the counts recorded for its id, and the totals of two
    corpora laid end to end add up. *)
Theorem corpus_totals_order_independent (corpus corpus' : list (list (nat * nat))) :
  corpus ≡ₚ corpus' →
  (∀ word_id, dict_get (total_word_count corpus) word_id
              = dict_get (total_word_count corpus') word_id) ∧
  total_word_count corpus ≡ₚ total_word_count corpus' ∧
  (∀ word_id, word_id ∈ (mjoin corpus).*1 →
     dict_get (total_word_count corpus) word_id
     = Some (count_sum word_id (mjoin corpus))) ∧
  (∀ word_id,
     default 0 (dict_get (total_word_count (corpus ++ corpus')) word_id)
     = default 0 (dict_get (total_word_count corpus) word_id)
       + default 0 (dict_get (total_word_count corpus') word_id)).
Proof.
  intros Hp.
  assert (Hget : ∀ k, dict_get (total_word_count corpus) k
                      = dict_get (total_word_count corpus') k).
  { intros k. rewrite !total_word_count_get.
    assert (Hj : mjoin corpus ≡ₚ mjoin corpus') by (by rewrite Hp).
    rewrite (count_sum_perm k _ _ Hj). apply decide_ext. by rewrite Hj. }
  split_and!.
  - done.
  - apply dict_perm_of_get; [apply totals_NoDup..|done].
  - intros k Hk. by rewrite total_word_count_get, decide_True.
  - intros k. rewrite !total_word_count_get, join_app, count_sum_app, fmap_app.
    destruct (decide (k ∈ (mjoin corpus).*1)) as [H1|H1];
      destruct (decide (k ∈ (mjoin corpus').*1)) as [H2|H2]; simpl.
    + by rewrite decide_True by (apply elem_of_app; auto).
    + rewrite decide_True by (apply elem_of_app; auto). simpl.
      by rewrite (count_sum_absent k (mjoin corpus')).
    + rewrite decide_True by (apply elem_of_app; auto). simpl.
      by rewrite (count_sum_absent k (mjoin corpus)).
    + rewrite decide_False; [done|]. rewrite elem_of_app. tauto.
Qed.

Lemma corpus_totals_order_independent_witness :
  sample_corpus ≡ₚ reverse sample_corpus ∧
  dict_get (total_word_count sample_corpus) 1
  = dict_get (total_word_count (reverse sample_corpus)) 1.
Proof.
  assert (H : sample_corpus ≡ₚ reverse sample_corpus) by apply Permutation_swap.
  split; [exact H|].
  exact (proj1 (corpus_totals_order_independent _ _ H) 1).
Defined.

(** *** Lookups of absent keys *)

Lemma revdict_get_None (d : dict str nat) i :
  i ∉ d.*2 → dict_get (revdict d) i = None.
Proof.
  unfold revdict. induction d as [|[w k] d IH] using rev_ind; [done|].
  rewrite fmap_app, not_elem_of_app, foldl_snoc, dict_get_set. simpl.
  rewrite list_elem_of_singleton. intros [Hd Hne].
  rewrite decide_False by congruence. auto.
Qed.

(** C4, as stated, fails for the count mappings: the corpus totals are a
    [defaultdict(int)], and reading an id that no document contains gives 0,
    the very answer a present entry with count zero gives. *)
Lemma corpus_total_reads_zero_for_unseen_id :
  dict_get (total_word_count sample_corpus) 7 = None ∧
  (defaultdict_getitem (total_word_count sample_corpus) 7).1 = 0 ∧
  ¬ (∀ corpus word_id, word_id ∉ (mjoin corpus).*1 →
       ∀ zero_entry : dict nat nat, dict_get zero_entry word_id = Some 0 →
         (defaultdict_getitem (total_word_count corpus) word_id).1
         ≠ (defaultdict_getitem zero_entry word_id).1).
Proof.
  assert (Hunseen : 7 ∉ (mjoin sample_corpus).*1) by decide_by_evaluation.
  split_and!; [done..|].
  intros H. by apply (H sample_corpus 7 Hunseen [(7, 0)] eq_refl).
Qed.

(** C4 (amended): the vocabulary lookups never fail and answer [None] for a
    token or id the vocabulary does not hold, never a number; the count
    mappings answer 0 for a key they do not hold: the corpus totals read 0
    for an unseen id (and bind it to 0), a [Counter] reads 0 for an unseen
    token. *)
Theorem absent_vocabulary_is_None_absent_count_is_zero
    (d : gensim_dictionary) (corpus : list (list (nat * nat))) (tokens : list str) :
  (∀ token, token2id_get d token = None ↔ token ∉ dict_keys (token2id d)) ∧
  (∀ token, token ∈ dict_keys (token2id d) → ∃ i, token2id_get d token = Some i) ∧
  Dictionary_get d None = None ∧
  (∀ i, i ∉ (token2id d).*2 → Dictionary_get d (Some i) = None) ∧
  (∀ word_id, word_id ∉ (mjoin corpus).*1 →
     dict_get (total_word_count corpus) word_id = None ∧
     defaultdict_getitem (total_word_count corpus) word_id
     = (0, total_word_count corpus ++ [(word_id, 0)])) ∧
  (∀ word_id, word_id ∈ (mjoin corpus).*1 →
     defaultdict_getitem (total_word_count corpus) word_id
     = (count_sum word_id (mjoin corpus), total_word_count corpus)) ∧
  (∀ t, t ∉ tokens → dict_get (Counter tokens) t = None ∧
                      Counter_getitem (Counter tokens) t = 0).
Proof.
  split_and!.
  - intros token. apply dict_get_None.
  - intros token Hin. by apply dict_get_is_Some.
  - done.
  - intros i Hi. simpl. by apply revdict_get_None.
  - intros k Hk.
    assert (Hn : dict_get (total_word_count corpus) k = None)
      by (by rewrite total_word_count_get, decide_False).
    split; [done|]. unfold defaultdict_getitem. rewrite Hn.
    f_equal. apply dict_set_absent. by apply dict_get_None.
  - intros k Hk. unfold defaultdict_getitem.
    by rewrite total_word_count_get, decide_True.
  - intros t Ht. unfold Counter_getitem, Counter.
    by rewrite count_elements_get, decide_False.
Qed.

Lemma absent_vocabulary_is_None_absent_count_is_zero_witness :
  (7 ∉ (mjoin sample_corpus).*1) ∧
  defaultdict_getitem (total_word_count sample_corpus) 7
  = (0, total_word_count sample_corpus ++ [(7, 0)]).
Proof.
  assert (H : 7 ∉ (mjoin sample_corpus).*1) by decide_by_evaluation.
  split; [exact H|].
  pose proof (absent_vocabulary_is_None_absent_count_is_zero
                {| token2id := [] |} sample_corpus []) as T.
  exact (proj2 (proj1 (proj2 (proj2 (proj2 (proj2 T)))) 7 H)).
Defined.

(** *** The order of strings and of tuples *)

Lemma str_lt_irrefl a : str_lt a a = false.
Proof. induction a as [|x a IH]; simpl; [done|]. by rewrite N.ltb_irrefl. Qed.

Lemma str_lt_trans a b c : str_lt a b = true → str_lt b c = true → str_lt a c = true.
Proof.
  revert b c. induction a as [|x a IH]; intros [|y b] [|z c]; simpl; try done.
  destruct (N.ltb_spec x y), (N.ltb_spec y x), (N.ltb_spec y z), (N.ltb_spec z y),
    (N.ltb_spec x z), (N.ltb_spec z x); try done; try lia.
  apply IH.
Qed.

Lemma str_lt_asym a b : str_lt a b = true → str_lt b a = false.
Proof.
  intros Hab. destruct (str_lt b a) eqn:Hba; [|done].
  by rewrite <- (str_lt_irrefl a), (str_lt_trans a b a).
Qed.

Lemma str_lt_total a b : a ≠ b → str_lt a b = true ∨ str_lt b a = true.
Proof.
  revert b. induction a as [|x a IH]; intros [|y b] Hne; simpl; try done; auto.
  destruct (N.ltb_spec x y), (N.ltb_spec y x); auto; try lia.
  assert (x = y) by lia. subst. apply IH. congruence.
Qed.

Section tuple_order.
Context {A B : Type} `{EqDecision A} (ltA : A → A → bool) (ltB : B → B → bool).
Context (ltA_irrefl : ∀ a, ltA a a = false).
Context (ltA_trans : ∀ a b c, ltA a b = true → ltA b c = true → ltA a c = true).
Context (ltA_total : ∀ a b, a ≠ b → ltA a b = true ∨ ltA b a = true).
Context (ltB_asym : ∀ a b, ltB a b = true → ltB b a = false).
Context (leB_trans : ∀ a b c, ltB b a = false → ltB c b = false → ltB c a = false).

Lemma ltA_asym a b : ltA a b = true → ltA b a = false.
Proof.
  intros Hab. destruct (ltA b a) eqn:Hba; [|done].
  by rewrite <- (ltA_irrefl a), (ltA_trans a b a).
Qed.

Lemma tuple_lt_asym x y :
  tuple_lt ltA ltB x y = true → tuple_lt ltA ltB y x = false.
Proof.
  unfold tuple_lt. repeat case_decide; try congruence; auto using ltA_asym.
Qed.

Lemma tuple_le_trans x y z :
  may_precede (tuple_lt ltA ltB) x y → may_precede (tuple_lt ltA ltB) y z →
  may_precede (tuple_lt ltA ltB) x z.
Proof.
  unfold may_precede, tuple_lt. intros Hxy Hyz.
  destruct (decide (y.1 = x.1)) as [Eyx|Nyx];
    destruct (decide (z.1 = y.1)) as [Ezy|Nzy].
  - rewrite decide_True by congruence. by eapply leB_trans.
  - rewrite decide_False by congruence. by rewrite <- Eyx.
  - rewrite decide_False by congruence. by rewrite Ezy.
  - assert (H1 : ltA x.1 y.1 = true).
    { destruct (ltA_total x.1 y.1); congruence. }
    assert (H2 : ltA y.1 z.1 = true).
    { destruct (ltA_total y.1 z.1); congruence. }
    pose proof (ltA_trans _ _ _ H1 H2) as H3.
    case_decide as Ezx.
    + rewrite Ezx, ltA_irrefl in H3. done.
    + by apply ltA_asym.
Qed.
End tuple_order.

Lemma sorted_str_tuples_ordered (l : list (str * nat)) :
  StronglySorted (may_precede str_tuple_lt) (sorted str_tuple_lt l).
Proof.
  apply sorted_ordered.
  - apply tuple_lt_asym; [apply str_lt_irrefl|apply str_lt_trans|].
    intros a b. rewrite Nat.ltb_lt, Nat.ltb_ge. lia.
  - apply tuple_le_trans;
      [apply str_lt_irrefl|apply str_lt_trans|apply str_lt_total|].
    intros a b c. rewrite !Nat.ltb_ge. lia.
Qed.

(** *** The corpus dictionary *)

Example sample_dictionary :
  Dictionary sample_documents
  = Some {| token2id := [(lit "benefit", 0); (lit "cost", 1); (lit "analysis", 2)] |}.
Proof. vm_compute. reflexivity. Qed.

Lemma dict_get_app {K V} `{EqDecision K} (d1 d2 : dict K V) k :
  dict_get (d1 ++ d2) k
  = match dict_get d1 k with Some v => Some v | None => dict_get d2 k end.
Proof.
  induction d1 as [|[k0 v0] d1 IH]; simpl; [done|]. by case_decide.
Qed.

Lemma well_numbered_lookup t w i :
  well_numbered t → dict_get t w = Some i → t !! i = Some (w, i).
Proof.
  intros [_ Hv] Hg. apply dict_get_Some_elem, list_elem_of_lookup_1 in Hg as [n Hn].
  assert (Hs : t.*2 !! n = Some i) by (by rewrite list_lookup_fmap, Hn).
  rewrite Hv in Hs. apply lookup_seq in Hs as [-> _]. done.
Qed.

Lemma well_numbered_get t w i j :
  well_numbered t → t !! i = Some (w, j) → j = i ∧ dict_get t w = Some i.
Proof.
  intros [Hk Hv] Hl.
  assert (Hs : t.*2 !! i = Some j) by (by rewrite list_lookup_fmap, Hl).
  rewrite Hv in Hs. apply lookup_seq in Hs as [-> _]. split; [done|].
  apply dict_get_elem; [done|]. by eapply list_elem_of_lookup_2.
Qed.

Lemma well_numbered_bound t w i :
  well_numbered t → dict_get t w = Some i → i < length t.
Proof.
  intros Hw Hg. eapply lookup_lt_Some. by apply well_numbered_lookup.
Qed.

Lemma well_numbered_unique_ids t : well_numbered t → unique_ids t.
Proof. intros [Hk Hv]. split; [done|]. rewrite Hv. apply NoDup_seq. Qed.

Lemma unique_ids_inj t w w' i :
  unique_ids t → dict_get t w = Some i → dict_get t w' = Some i → w = w'.
Proof.
  intros [_ Hv] H1%dict_get_Some_elem H2%dict_get_Some_elem.
  apply list_elem_of_lookup_1 in H1 as [n1 H1], H2 as [n2 H2].
  assert (n1 = n2).
  { apply (NoDup_lookup _ n1 n2 i Hv); by rewrite list_lookup_fmap, ?H1, ?H2. }
  subst. congruence.
Qed.

(** Ids are handed out in list order to tokens the vocabulary lacks. *)
Lemma assign_ids_app (new : list (str * nat)) : ∀ t,
  NoDup new.*1 → (∀ w, w ∈ new.*1 → w ∉ dict_keys t) →
  assign_ids t new = t ++ zip new.*1 (seq (length t) (length new)).
Proof.
  unfold assign_ids. induction new as [|[w c] new IH]; intros t Hnd Hnew; simpl.
  - by rewrite app_nil_r.
  - apply NoDup_cons in Hnd as [Hw Hnd].
    rewrite dict_set_absent by (apply Hnew, list_elem_of_here).
    rewrite IH; [|done|].
    + rewrite length_app, <- app_assoc. simpl. by rewrite Nat.add_1_r.
    + intros w' Hw'. unfold dict_keys. rewrite fmap_app, not_elem_of_app. split.
      * apply Hnew. by apply list_elem_of_further.
      * simpl. rewrite list_elem_of_singleton. intros ->. done.
Qed.

(** The tokens a document adds to the vocabulary, in the order in which
    they receive their ids. *)
Lemma missing_keys_perm self counter :
  (missing self counter).*1
  ≡ₚ (filter (λ x, dict_get (token2id self) x.1 = None) counter).*1.
Proof. unfold missing. by rewrite sorted_perm. Qed.

Lemma missing_keys_NoDup self document :
  NoDup (missing self (count_elements document)).*1.
Proof.
  rewrite missing_keys_perm.
  apply (sublist_NoDup _ (dict_keys (count_elements document)));
    [apply count_elements_NoDup|].
  apply fmap_sublist, sublist_filter.
Qed.

Lemma missing_keys_elem self document w :
  w ∈ (missing self (count_elements document)).*1
  ↔ w ∈ document ∧ w ∉ dict_keys (token2id self).
Proof.
  rewrite missing_keys_perm, list_elem_of_fmap. split.
  - intros ([w' c] & -> & [Hn Hin]%list_elem_of_filter). simpl in *. split.
    + by apply count_elements_elem in Hin as [? _].
    + by apply dict_get_None.
  - intros [Hd Hn]. exists (w, occurrences w document). split; [done|].
    apply list_elem_of_filter. split.
    + simpl. by apply dict_get_None.
    + by apply count_elements_elem.
Qed.

Lemma missing_keys_ascending self document i j a b :
  i < j →
  (missing self (count_elements document)).*1 !! i = Some a →
  (missing self (count_elements document)).*1 !! j = Some b →
  str_lt a b = true.
Proof.
  intros Hij Hi Hj.
  assert (Hne : a ≠ b).
  { intros ->.
    pose proof (NoDup_lookup _ i j b (missing_keys_NoDup self document) Hi Hj). lia. }
  rewrite list_lookup_fmap in Hi, Hj.
  destruct (missing self (count_elements document) !! i) as [x|] eqn:Ex; [|done].
  destruct (missing self (count_elements document) !! j) as [y|] eqn:Ey; [|done].
  simpl in Hi, Hj. simplify_eq.
  pose proof (StronglySorted_lookup _ _ i j x y
                (sorted_str_tuples_ordered _) Hij Ex Ey) as Hxy.
  unfold may_precede, str_tuple_lt, tuple_lt in Hxy.
  rewrite decide_False in Hxy by congruence.
  destruct (str_lt_total x.1 y.1 Hne); congruence.
Qed.

Lemma doc2bow_update self document :
  token2id (doc2bow self document true).2
  = token2id self
    ++ zip (missing self (count_elements document)).*1
           (seq (length (token2id self))
                (length (missing self (count_elements document)))).
Proof.
  simpl. apply assign_ids_app; [apply missing_keys_NoDup|].
  intros w Hw. by apply missing_keys_elem in Hw as [_ ?].
Qed.

Lemma doc2bow_update_keys self document :
  dict_keys (token2id (doc2bow self document true).2)
  = dict_keys (token2id self) ++ (missing self (count_elements document)).*1.
Proof.
  rewrite doc2bow_update. unfold dict_keys.
  rewrite fmap_app, fst_zip; [done|]. by rewrite length_seq, length_fmap.
Qed.

Lemma doc2bow_update_well_numbered self document :
  well_numbered (token2id self) →
  well_numbered (token2id (doc2bow self document true).2).
Proof.
  intros [Hk Hv]. split.
  - rewrite doc2bow_update_keys. apply NoDup_app. split_and!; [done| |].
    + intros w Hw Hw'. by apply missing_keys_elem in Hw' as [_ ?].
    + apply missing_keys_NoDup.
  - rewrite doc2bow_update, fmap_app, length_app, Hv.
    rewrite snd_zip by (by rewrite length_seq, length_fmap).
    rewrite length_zip, length_seq, length_fmap, Nat.min_id.
    by rewrite seq_app.
Qed.

Lemma first_seen_in_head doc rest w : first_seen_in (doc :: rest) w 0 ↔ w ∈ doc.
Proof.
  unfold first_seen_in. split.
  - intros [(doc' & Hd & Hw) _]. simpl in Hd. by simplify_eq.
  - intros Hw. split; [by exists doc|]. intros m' doc' Hm'. lia.
Qed.

Lemma first_seen_in_tail doc rest w m :
  first_seen_in (doc :: rest) w (S m) ↔ (w ∉ doc) ∧ first_seen_in rest w m.
Proof.
  unfold first_seen_in. split.
  - intros [(doc' & Hd & Hw) Hbefore]. split_and!.
    + apply (Hbefore 0 doc); [lia|done].
    + by exists doc'.
    + intros m' doc'' Hm' Hd'. apply (Hbefore (S m') doc''); [lia|done].
  - intros (Hn & (doc' & Hd & Hw) & Hbefore). split; [by exists doc'|].
    intros [|m'] doc'' Hm' Hd'; simpl in Hd'.
    + by simplify_eq.
    + apply (Hbefore m' doc''); [lia|done].
Qed.

Lemma prefix_id_small (t ext : dict str nat) w i :
  well_numbered t → w ∈ dict_keys t → dict_get (t ++ ext) w = Some i → i < length t.
Proof.
  intros Hw Hin. rewrite dict_get_app.
  apply dict_get_is_Some in Hin as [j Hj]. rewrite Hj. intros ?. simplify_eq.
  by eapply well_numbered_bound.
Qed.

Lemma prefix_id_large (t ext : dict str nat) w i :
  well_numbered (t ++ ext) → w ∉ dict_keys t → dict_get (t ++ ext) w = Some i →
  length t ≤ i.
Proof.
  intros Hw Hn Hg. apply well_numbered_lookup in Hg; [|done].
  destruct (decide (i < length t)) as [Hlt|]; [|lia].
  rewrite lookup_app_l in Hg by done.
  destruct Hn. apply list_elem_of_fmap. exists (w, i).
  split; [done|]. by eapply list_elem_of_lookup_2.
Qed.

Lemma new_token_id self document p w :
  well_numbered (token2id self) →
  (missing self (count_elements document)).*1 !! p = Some w →
  dict_get (token2id (doc2bow self document true).2) w
  = Some (length (token2id self) + p).
Proof.
  intros Hw Hp.
  apply (well_numbered_get _ w _ (length (token2id self) + p)).
  - by apply doc2bow_update_well_numbered.
  - rewrite doc2bow_update, lookup_app_r by lia.
    replace (length (token2id self) + p - length (token2id self)) with p by lia.
    apply lookup_zip_with_Some. exists w, (length (token2id self) + p).
    split_and!; [done..|]. apply lookup_seq. split; [done|].
    apply lookup_lt_Some in Hp. by rewrite length_fmap in Hp.
Qed.

(** What [add_documents] makes of a well-numbered vocabulary. *)
Lemma add_documents_spec documents : ∀ self docno d,
  well_numbered (token2id self) →
  add_documents self docno documents = Some d →
  well_numbered (token2id d) ∧
  (∃ ext, token2id d = token2id self ++ ext) ∧
  (∀ w, w ∈ dict_keys (token2id d)
        ↔ w ∈ dict_keys (token2id self) ∨ ∃ doc, doc ∈ documents ∧ w ∈ doc) ∧
  (∀ a b m m' ia ib,
     a ∉ dict_keys (token2id self) → b ∉ dict_keys (token2id self) →
     first_seen_in documents a m → first_seen_in documents b m' →
     dict_get (token2id d) a = Some ia → dict_get (token2id d) b = Some ib →
     (m < m' → ia < ib) ∧ (m = m' → str_lt a b = true → ia < ib)).
Proof.
  induction documents as [|doc rest IH]; intros self docno d Hwn Hadd.
  - simpl in Hadd. simplify_eq. split_and!; [done|by exists []; rewrite app_nil_r| |].
    + intros w. split; [auto|]. intros [?|(doc & Hd & _)]; [done|].
      by apply elem_of_nil in Hd.
    + intros a b m m' ia ib _ _ [(doc & Hd & _) _]. done.
  - simpl in Hadd. destruct (_ && _)%bool; [done|].
    set (self1 := (doc2bow self doc true).2) in *.
    assert (Hwn1 : well_numbered (token2id self1))
      by (by apply doc2bow_update_well_numbered).
    destruct (IH self1 _ d Hwn1 Hadd) as (Hwd & [ext Hext] & Hkeys & Horder).
    assert (Hin1 : ∀ w, w ∈ dict_keys (token2id self1)
                        ↔ w ∈ dict_keys (token2id self)
                          ∨ (w ∈ doc ∧ (w ∉ dict_keys (token2id self)))).
    { intros w. unfold self1.
      by rewrite doc2bow_update_keys, elem_of_app, missing_keys_elem. }
    split_and!; [done| | |].
    + exists (zip (missing self (count_elements doc)).*1
                  (seq (length (token2id self))
                       (length (missing self (count_elements doc)))) ++ ext).
      rewrite Hext. unfold self1. by rewrite doc2bow_update, app_assoc.
    + intros w. rewrite Hkeys, Hin1. split.
      * intros [[?|[? _]]|(doc' & Hd & Hw)]; [by left| |].
        -- right. exists doc. split; [apply list_elem_of_here|done].
        -- right. exists doc'. split; [by apply list_elem_of_further|done].
      * intros [?|(doc' & Hd & Hw)]; [by left; left|].
        apply elem_of_cons in Hd as [->|Hd].
        -- left. destruct (decide (w ∈ dict_keys (token2id self))); auto.
        -- right. by exists doc'.
    + intros a b m m' ia ib Ha Hb Hfa Hfb Hia Hib.
      rewrite Hext in Hia, Hib, Hwd.
      assert (Hold : ∀ w, w ∉ dict_keys (token2id self) → w ∉ doc →
                          w ∉ dict_keys (token2id self1)).
      { intros w ? ?. rewrite Hin1. tauto. }
      split.
      * intros Hlt. destruct m' as [|m1']; [lia|].
        apply first_seen_in_tail in Hfb as [Hbd Hfb].
        pose proof (prefix_id_large _ _ _ _ Hwd (Hold b Hb Hbd) Hib) as Hlarge.
        destruct m as [|m1].
        -- apply first_seen_in_head in Hfa.
           assert (Ha1 : a ∈ dict_keys (token2id self1)) by (apply Hin1; auto).
           pose proof (prefix_id_small _ _ _ _ Hwn1 Ha1 Hia). lia.
        -- apply first_seen_in_tail in Hfa as [Had Hfa].
           rewrite <- Hext in Hia, Hib.
           destruct (Horder a b m1 m1' ia ib) as [Hless _]; auto.
           apply Hless. lia.
      * intros <- Hab. destruct m as [|m1].
        -- apply first_seen_in_head in Hfa, Hfb.
           assert (Hna : a ∈ (missing self (count_elements doc)).*1)
             by (by apply missing_keys_elem).
           assert (Hnb : b ∈ (missing self (count_elements doc)).*1)
             by (by apply missing_keys_elem).
           apply list_elem_of_lookup_1 in Hna as [pa Hpa], Hnb as [pb Hpb].
           pose proof (new_token_id self doc pa a Hwn Hpa) as Hga.
           pose proof (new_token_id self doc pb b Hwn Hpb) as Hgb.
           fold self1 in Hga, Hgb.
           rewrite dict_get_app, Hga in Hia. rewrite dict_get_app, Hgb in Hib.
           simplify_eq.
           destruct (lt_eq_lt_dec pa pb) as [[Hlt|Heq]|Hgt]; [lia| |].
           ++ subst. rewrite Hpa in Hpb. simplify_eq.
              by rewrite str_lt_irrefl in Hab.
           ++ pose proof (missing_keys_ascending self doc pb pa b a Hgt Hpb Hpa) as Hba.
              by rewrite (str_lt_asym _ _ Hab) in Hba.
        -- apply first_seen_in_tail in Hfa as [Had Hfa], Hfb as [Hbd Hfb].
           rewrite <- Hext in Hia, Hib.
           destruct (Horder a b m1 m1 ia ib) as [_ Hsame]; auto.
Qed.

(** Below ten thousand documents the pruning step is never reached. *)
Lemma add_documents_no_prune documents : ∀ self docno,
  (0 < docno)%N → (docno + N.of_nat (length documents) ≤ 10000)%N →
  is_Some (add_documents self docno documents).
Proof.
  induction documents as [|doc rest IH]; intros self docno Hpos Hle; [by eexists|].
  cbn [add_documents]. rewrite length_cons in Hle.
  replace (docno mod 10000 =? 0)%N with false.
  - simpl. apply IH; lia.
  - symmetry. apply N.eqb_neq. rewrite N.mod_small; lia.
Qed.

Lemma Dictionary_is_Some documents :
  (N.of_nat (length documents) ≤ 10000)%N → is_Some (Dictionary documents).
Proof.
  unfold Dictionary. destruct documents as [|doc rest]; [by eexists|].
  intros Hle. rewrite length_cons in Hle. cbn [add_documents].
  replace (prune_at <? N.of_nat (length (token2id {| token2id := [] |})))%N
    with false by reflexivity.
  rewrite andb_false_r. apply add_documents_no_prune; lia.
Qed.

(** C2, as stated, fails: within one document the new tokens receive their
    ids in sorted order, not in order of appearance.  For the documents
    [cost, cost, benefit] and [benefit, analysis] the vocabulary is
    {benefit: 0, cost: 1, analysis: 2}. *)
Lemma vocabulary_ids_not_in_order_of_appearance :
  (∃ d, Dictionary sample_documents = Some d ∧
        token2id d = [(lit "benefit", 0); (lit "cost", 1); (lit "analysis", 2)]) ∧
  ¬ (∃ d, Dictionary sample_documents = Some d ∧
          token2id_get d (lit "cost") = Some 0 ∧
          token2id_get d (lit "benefit") = Some 1 ∧
          token2id_get d (lit "analysis") = Some 2).
Proof.
  split.
  - eexists. split; [apply sample_dictionary|done].
  - intros (d & Hd & Hcost & _). rewrite sample_dictionary in Hd.
    injection Hd as <-. vm_compute in Hcost. discriminate.
Qed.

(** C2 (amended): whenever the constructor reaches no pruning step, and
    so for every corpus of at most 10000 documents, it returns a vocabulary
    that holds exactly the tokens of the documents, each with one id,
    distinct tokens with distinct ids, the ids being 0, 1, 2, ... without
    gaps; a token first seen in an earlier document has a smaller id than a
    token first seen in a later document, and of two tokens first seen in
    the same document the one that is smaller as a string has the smaller
    id, whatever their order of appearance; the documents
    [cost, cost, benefit] and [benefit, analysis] give
    {benefit: 0, cost: 1, analysis: 2}. *)
Theorem vocabulary_ids_by_document_then_sorted_token (documents : list (list str)) :
  ((N.of_nat (length documents) ≤ 10000)%N → is_Some (Dictionary documents)) ∧
  (∀ d, Dictionary documents = Some d →
    (∀ w, w ∈ dict_keys (token2id d) ↔ ∃ doc, doc ∈ documents ∧ w ∈ doc) ∧
    NoDup (dict_keys (token2id d)) ∧
    (token2id d).*2 = seq 0 (length (token2id d)) ∧
    (∀ a b i, token2id_get d a = Some i → token2id_get d b = Some i → a = b) ∧
    (∀ a b m m' ia ib,
       first_seen_in documents a m → first_seen_in documents b m' →
       token2id_get d a = Some ia → token2id_get d b = Some ib →
       (m < m' → ia < ib) ∧ (m = m' → str_lt a b = true → ia < ib))) ∧
  Dictionary sample_documents
  = Some {| token2id := [(lit "benefit", 0); (lit "cost", 1); (lit "analysis", 2)] |}.
Proof.
  split_and!; [apply Dictionary_is_Some| |apply sample_dictionary].
  intros d Hd.
  assert (Hempty : well_numbered (token2id {| token2id := [] |})).
  { split; [constructor|done]. }
  destruct (add_documents_spec documents _ _ d Hempty Hd)
    as (Hwd & _ & Hkeys & Horder).
  split_and!.
  - intros w. rewrite Hkeys. split; [|auto].
    intros [Hin|?]; [|done]. by apply elem_of_nil in Hin.
  - apply Hwd.
  - apply Hwd.
  - intros a b i. apply unique_ids_inj. by apply well_numbered_unique_ids.
  - intros a b m m' ia ib. apply Horder; apply not_elem_of_nil.
Qed.

Lemma vocabulary_ids_by_document_then_sorted_token_witness :
  (N.of_nat (length sample_documents) ≤ 10000)%N ∧
  ∃ d, Dictionary sample_documents = Some d ∧
       NoDup (dict_keys (token2id d)) ∧
       (token2id d).*2 = seq 0 (length (token2id d)).
Proof.
  assert (H : (N.of_nat (length sample_documents) ≤ 10000)%N) by (vm_compute; discriminate).
  split; [exact H|].
  destruct (vocabulary_ids_by_document_then_sorted_token sample_documents)
    as (Htotal & Hrun & _).
  destruct (Htotal H) as [d Hd].
  destruct (Hrun d Hd) as (_ & Hnd & Hseq & _).
  exists d. by split_and!.
Defined.

(** *** Document vectors *)

Lemma sum_filter_dict_set {K} `{EqDecision K} (P : K → Prop) `{!∀ k, Decision (P k)}
    (d : dict K nat) k v :
  sum_list (filter (λ x, P x.1) (dict_set d k v)).*2
    + (if decide (P k) then default 0 (dict_get d k) else 0)
  = sum_list (filter (λ x, P x.1) d).*2 + (if decide (P k) then v else 0).
Proof.
  induction d as [|[k0 v0] d IH]; simpl.
  - rewrite filter_cons, filter_nil. simpl. case_decide; simpl; lia.
  - destruct (decide (k0 = k)) as [->|Hne].
    + rewrite !filter_cons. simpl. case_decide; simpl; lia.
    + rewrite !filter_cons. csimpl. destruct (decide (P k0)); csimpl; [|done].
      by rewrite <- !Nat.add_assoc, IH.
Qed.

(** The counts of the tokens with a property add up to the number of
    such tokens in the document. *)
Lemma count_elements_sum {K} `{EqDecision K} (P : K → Prop) `{!∀ k, Decision (P k)}
    (l : list K) :
  sum_list (filter (λ x, P x.1) (count_elements l)).*2 = length (filter P l).
Proof.
  induction l as [|x l IH] using rev_ind; [done|].
  rewrite count_elements_snoc, filter_app, length_app, filter_cons, filter_nil.
  pose proof (sum_filter_dict_set P (count_elements l) x
                (default 0 (dict_get (count_elements l) x) + 1)) as Hs.
  rewrite IH in Hs. destruct (decide (P x)); simpl in *; lia.
Qed.

Lemma bow_entry_keys_NoDup t (counter : dict str nat) :
  unique_ids t → NoDup (dict_keys counter) → NoDup (omap (bow_entry t) counter).*1.
Proof.
  intros Hu. unfold dict_keys.
  induction counter as [|[w c] counter IH]; [constructor|].
  rewrite fmap_cons, NoDup_cons. simpl. intros [Hw Hnd].
  unfold bow_entry at 1. simpl.
  destruct (dict_get t w) as [i|] eqn:E; simpl; [|auto].
  apply NoDup_cons. split; [|auto].
  intros ([i' c'] & Heq & ([w' c''] & Hin & Hentry)%list_elem_of_omap)%list_elem_of_fmap.
  apply (list_elem_of_fmap_2 fst) in Hin.
  unfold bow_entry in Hentry. simpl in *. subst i'.
  destruct (dict_get t w') as [j|] eqn:E'; simplify_eq/=.
  assert (w = w') by (by eapply unique_ids_inj). by subst.
Qed.

Lemma bow_of_foldl t (counter : dict str nat) : ∀ acc,
  NoDup (acc.*1 ++ (omap (bow_entry t) counter).*1) →
  foldl (λ result x, match dict_get t x.1 with
                     | Some i => dict_set result i x.2
                     | None => result
                     end) acc counter
  = acc ++ omap (bow_entry t) counter.
Proof.
  induction counter as [|[w c] counter IH]; intros acc Hnd; csimpl in *.
  - by rewrite app_nil_r.
  - assert (Hentry : bow_entry t (w, c) = (λ i, (i, c)) <$> dict_get t w) by done.
    rewrite Hentry in Hnd |- *. clear Hentry.
    destruct (dict_get t w) as [i|]; csimpl in *; [|auto].
    rewrite dict_set_absent.
    + rewrite IH; [by rewrite <- app_assoc|].
      by rewrite fmap_app, <- app_assoc.
    + apply NoDup_app in Hnd as (_ & Hdisj & _). intros Hin.
      apply (Hdisj i Hin), list_elem_of_here.
Qed.

Lemma bow_of_omap t (counter : dict str nat) :
  unique_ids t → NoDup (dict_keys counter) →
  bow_of t counter = omap (bow_entry t) counter.
Proof.
  intros Hu Hc. unfold bow_of. rewrite bow_of_foldl; [done|].
  by apply bow_entry_keys_NoDup.
Qed.

Lemma bow_entry_counts t (counter : dict str nat) :
  (omap (bow_entry t) counter).*2
  = (filter (λ x, is_Some (dict_get t x.1)) counter).*2.
Proof.
  induction counter as [|[w c] counter IH]; [done|].
  assert (Hentry : bow_entry t (w, c) = (λ i, (i, c)) <$> dict_get t w) by done.
  csimpl. rewrite Hentry.
  destruct (dict_get t w) as [i|] eqn:E; csimpl.
  - rewrite filter_cons_True by (simpl; rewrite E; by eexists).
    csimpl. by rewrite IH.
  - rewrite filter_cons_False by (simpl; rewrite E; by intros [? ?]). done.
Qed.

Lemma bow_entry_counts_for t (counter : dict str nat) i :
  (filter (λ x, x.1 = i) (omap (bow_entry t) counter)).*2
  = (filter (λ x, dict_get t x.1 = Some i) counter).*2.
Proof.
  induction counter as [|[w c] counter IH]; [done|].
  assert (Hentry : bow_entry t (w, c) = (λ i, (i, c)) <$> dict_get t w) by done.
  csimpl. rewrite Hentry.
  destruct (dict_get t w) as [j|] eqn:E; csimpl.
  - destruct (decide (j = i)) as [->|Hne].
    + rewrite !filter_cons_True by (simpl; congruence). csimpl. by rewrite IH.
    + rewrite !filter_cons_False by (simpl; congruence). done.
  - rewrite filter_cons_False by (simpl; congruence). done.
Qed.

Lemma dict_get_count_sum (d : dict nat nat) i :
  NoDup (dict_keys d) → default 0 (dict_get d i) = count_sum i d.
Proof.
  unfold dict_keys. induction d as [|[k v] d IH]; [done|].
  rewrite fmap_cons, NoDup_cons. intros [Hk Hnd].
  change ((k, v) :: d) with ([(k, v)] ++ d) at 2. rewrite count_sum_app.
  simpl dict_get. case_decide as Hki; simpl in *.
  - subst. rewrite (count_sum_absent i d) by done.
    unfold count_sum. rewrite filter_cons_True by done. simpl. lia.
  - rewrite (count_sum_absent i [(k, v)]); [auto|].
    simpl. rewrite list_elem_of_singleton. congruence.
Qed.

Lemma Dictionary_unique_ids documents d :
  Dictionary documents = Some d → unique_ids (token2id d).
Proof.
  intros Hd. apply well_numbered_unique_ids.
  assert (Hempty : well_numbered (token2id {| token2id := [] |})).
  { split; [constructor|done]. }
  by destruct (add_documents_spec documents _ _ d Hempty Hd) as [? _].
Qed.

Lemma doc2bow_perm d document :
  unique_ids (token2id d) →
  (doc2bow d document false).1
  ≡ₚ omap (bow_entry (token2id d)) (count_elements document).
Proof.
  intros Hu. simpl. rewrite sorted_perm.
  by rewrite bow_of_omap by (done || apply count_elements_NoDup).
Qed.

Example sample_vectors :
  ∃ d, Dictionary sample_documents = Some d ∧
       corpus_of d sample_documents = [[(0, 1); (1, 2)]; [(0, 1); (2, 1)]] ∧
       total_word_count (corpus_of d sample_documents) = [(0, 2); (1, 2); (2, 1)].
Proof. eexists. split; [apply sample_dictionary|]. split; vm_compute; reflexivity. Qed.

(** C5: for a vocabulary with unique ids (every vocabulary the constructor
    builds is one) the counts of a document vector add up to the number of
    tokens of the document that the vocabulary holds; the count of each id
    is the number of tokens of the document with that id, and an id without
    an entry counts zero because no token of the document has it. *)
Theorem doc2bow_counts_tokens_in_vocabulary (d : gensim_dictionary) (document : list str) :
  unique_ids (token2id d) →
  let bow := (doc2bow d document false).1 in
  sum_list bow.*2 = length (filter (λ w, is_Some (token2id_get d w)) document) ∧
  (∀ i, bow_count bow i = length (filter (λ w, token2id_get d w = Some i) document)) ∧
  (∀ i, i ∉ bow.*1 →
        bow_count bow i = 0 ∧ ∀ w, w ∈ document → token2id_get d w ≠ Some i) ∧
  NoDup bow.*1 ∧
  (doc2bow d document false).2 = d.
Proof.
  intros Hu bow.
  pose proof (doc2bow_perm d document Hu) as Hp. fold bow in Hp.
  assert (Hnd : NoDup bow.*1).
  { rewrite Hp. apply bow_entry_keys_NoDup; [done|apply count_elements_NoDup]. }
  assert (Hcount : ∀ i, bow_count bow i
                        = length (filter (λ w, token2id_get d w = Some i) document)).
  { intros i. unfold bow_count. rewrite dict_get_count_sum by done.
    rewrite (count_sum_perm i _ _ Hp). unfold count_sum.
    rewrite bow_entry_counts_for. unfold token2id_get.
    exact (count_elements_sum (λ w, dict_get (token2id d) w = Some i) document). }
  split_and!.
  - rewrite Hp, bow_entry_counts. unfold token2id_get.
    exact (count_elements_sum (λ w, is_Some (dict_get (token2id d) w)) document).
  - done.
  - intros i Hi.
    assert (Hz : bow_count bow i = 0).
    { unfold bow_count. by rewrite (proj2 (dict_get_None bow i) Hi). }
    split; [done|]. intros w Hw Hg.
    rewrite Hcount in Hz. apply length_zero_iff_nil in Hz.
    assert (Hin : w ∈ filter (λ w, token2id_get d w = Some i) document)
      by (by apply list_elem_of_filter).
    rewrite Hz in Hin. by apply elem_of_nil in Hin.
  - done.
  - by destruct d.
Qed.

Lemma doc2bow_counts_tokens_in_vocabulary_witness :
  unique_ids [(lit "benefit", 0); (lit "cost", 1); (lit "analysis", 2)] ∧
  sum_list (doc2bow {| token2id := [(lit "benefit", 0); (lit "cost", 1); (lit "analysis", 2)] |}
              (lit <$> ["cost"; "of"; "cost"; "benefit"]%string) false).1.*2
  = 3.
Proof.
  assert (H : unique_ids [(lit "benefit", 0); (lit "cost", 1); (lit "analysis", 2)]).
  { split; apply (bool_decide_unpack _); vm_compute; exact I. }
  split; [exact H|].
  exact (proj1 (doc2bow_counts_tokens_in_vocabulary
                  {| token2id := [(lit "benefit", 0); (lit "cost", 1); (lit "analysis", 2)] |}
                  (lit <$> ["cost"; "of"; "cost"; "benefit"]%string) H)).
Defined.

(** *** Lines and pattern searches *)

Lemma split_at_nonempty sep s : split_at sep s ≠ [].
Proof. destruct s as [|c s]; simpl; [done|]. by destruct (sep c), (split_at sep s). Qed.

Lemma join_cons_cons sep piece piece' pieces :
  join sep (piece :: piece' :: pieces) = piece ++ sep ++ join sep (piece' :: pieces).
Proof. reflexivity. Qed.

Lemma join_cons_head sep c piece pieces :
  join sep ((c :: piece) :: pieces) = c :: join sep (piece :: pieces).
Proof. by destruct pieces. Qed.

Lemma split_at_cons_sep sep c s : sep c = true → split_at sep (c :: s) = [] :: split_at sep s.
Proof. intros H. simpl. by rewrite H. Qed.

Lemma split_at_cons_other sep c s piece pieces :
  sep c = false → split_at sep s = piece :: pieces →
  split_at sep (c :: s) = (c :: piece) :: pieces.
Proof. intros H Hs. simpl. by rewrite H, Hs. Qed.

(** Joining the lines of a text with line breaks gives the text back. *)
Theorem join_split_lines (s : str) :
  join [newline] (split_at is_newline s) = s.
Proof.
  induction s as [|c s IH]; [done|].
  destruct (split_at is_newline s) as [|piece pieces] eqn:E;
    [by destruct (split_at_nonempty is_newline s)|].
  destruct (is_newline c) eqn:Ec.
  - rewrite split_at_cons_sep, E by done. rewrite join_cons_cons. simpl.
    unfold is_newline in Ec. apply N.eqb_eq in Ec. subst. by f_equal.
  - rewrite (split_at_cons_other _ _ _ _ _ Ec E), join_cons_head. by f_equal.
Qed.

Lemma split_at_app_piece sep l rest piece pieces :
  Forall (λ c, sep c = false) l → split_at sep rest = piece :: pieces →
  split_at sep (l ++ rest) = (l ++ piece) :: pieces.
Proof.
  intros Hl Hr. induction Hl as [|c l Hc _ IH]; [done|].
  simpl app. by apply split_at_cons_other.
Qed.

Lemma split_at_no_sep sep l :
  Forall (λ c, sep c = false) l → split_at sep l = [l].
Proof.
  intros Hl. rewrite <- (app_nil_r l) at 1.
  rewrite (split_at_app_piece sep l [] [] []); [by rewrite app_nil_r|done..].
Qed.

(** Lines without line breaks, joined and split again, come back as they
    were. *)
Lemma split_join_lines (lines : list str) :
  lines ≠ [] → Forall (Forall (λ c, is_newline c = false)) lines →
  split_at is_newline (join [newline] lines) = lines.
Proof.
  intros Hne Hall. induction Hall as [|l lines Hl Hall IH]; [done|].
  destruct lines as [|l' lines'].
  - simpl. by apply split_at_no_sep.
  - rewrite join_cons_cons.
    rewrite (split_at_app_piece is_newline l _ [] (l' :: lines'));
      [by rewrite app_nil_r|done|].
    simpl app. rewrite split_at_cons_sep by done. f_equal. by apply IH.
Qed.

Lemma split_at_facts (sep : char → bool) (s : str) :
  length (split_at sep s) = S (length (filter (λ c, sep c) s)) ∧
  Forall (Forall (λ c, sep c = false)) (split_at sep s) ∧
  mjoin (split_at sep s) = filter (λ c, ¬ sep c) s.
Proof.
  unfold str in *. induction s as [|c s (IH1 & IH2 & IH3)].
  - split_and!; [done|by repeat constructor|done].
  - destruct (split_at sep s) as [|piece pieces] eqn:E;
      [by destruct (split_at_nonempty sep s)|].
    destruct (sep c) eqn:Ec.
    + rewrite split_at_cons_sep, E by done.
      rewrite filter_cons_True by (by rewrite Ec).
      rewrite filter_cons_False by (rewrite Ec; by intros []).
      split_and!; [simpl in *; lia|by constructor|done].
    + rewrite (split_at_cons_other _ _ _ _ _ Ec E).
      rewrite filter_cons_False by (rewrite Ec; by intros []).
      rewrite filter_cons_True by (rewrite Ec; by intros []).
      apply Forall_cons in IH2 as [Hp Hps].
      split_and!; [simpl in *; lia|by repeat constructor|].
      simpl in *. by rewrite IH3.
Qed.

Lemma after_first_line_no_newline l :
  Forall (λ c, is_newline c = false) l → after_first_line l = [].
Proof.
  unfold after_first_line. induction 1 as [|c l Hc _ IH]; [done|].
  simpl. by rewrite Hc.
Qed.

Lemma after_first_line_shape l :
  after_first_line l = [] ∨ ∃ rest, after_first_line l = newline :: rest.
Proof.
  unfold after_first_line. induction l as [|c l IH]; [by left|].
  simpl. destruct (is_newline c) eqn:Ec; simpl; [|done].
  right. exists l. unfold is_newline in Ec. apply N.eqb_eq in Ec. by subst.
Qed.

Lemma is_prompt_after_first_line l : is_prompt (after_first_line l) = false.
Proof.
  destruct (after_first_line_shape l) as [->|[rest ->]]; [by vm_compute|].
  unfold is_prompt.
  assert (H1 : is_stage_direction (newline :: rest) = false) by done.
  assert (H2 : is_speaker_label (newline :: rest) = false) by (by destruct rest).
  assert (H3 : is_entrance (newline :: rest) = false).
  { unfold is_entrance. rewrite bool_decide_eq_false_2; [done|].
    intros H. vm_compute in H. discriminate. }
  by rewrite H1, H2, H3.
Qed.

Example remove_prompt_samples :
  remove_prompt <$> (lit <$> ["TROILUS."; "[Exit Pandarus.]"; "ACT 1"; "Enter Cressida";
                              "Call here my varlet"; "[Aside] I will"; "A"; ""]%string)
  = lit <$> [""; ""; ""; ""; "Call here my varlet"; "[Aside] I will"; "A"; ""]%string.
Proof. vm_compute. reflexivity. Qed.

Lemma remove_prompt_facts (l : str) :
  (remove_prompt l = l ∨ remove_prompt l = after_first_line l) ∧
  (Forall (λ c, is_newline c = false) l → remove_prompt l = l ∨ remove_prompt l = []) ∧
  remove_prompt (remove_prompt l) = remove_prompt l.
Proof.
  destruct (is_prompt l) eqn:E.
  - assert (Hr : remove_prompt l = after_first_line l)
      by (unfold remove_prompt; by rewrite E).
    rewrite !Hr. split_and!; [by right| |].
    + intros Hl. right. by apply after_first_line_no_newline.
    + unfold remove_prompt. by rewrite is_prompt_after_first_line.
  - assert (Hr : remove_prompt l = l) by (unfold remove_prompt; by rewrite E).
    rewrite !Hr. split_and!; by try left.
Qed.

Lemma remove_prompt_no_newline l :
  Forall (λ c, is_newline c = false) l →
  Forall (λ c, is_newline c = false) (remove_prompt l).
Proof.
  intros Hl. destruct (remove_prompt_facts l) as (_ & H & _).
  destruct (H Hl) as [->| ->]; [done|constructor].
Qed.

(** The pieces of a split ([str.split] on a line break, [re.split] on the
    sentence endings): there is one piece more than there are separators, so
    never none; no piece holds a separator; the pieces together are the text
    without its separators; a text without separator is its own single
    piece. *)
Theorem split_at_pieces (sep : char → bool) (s : str) :
  length (split_at sep s) = S (length (filter (λ c, sep c) s)) ∧
  Forall (Forall (λ c, sep c = false)) (split_at sep s) ∧
  mjoin (split_at sep s) = filter (λ c, ¬ sep c) s ∧
  (Forall (λ c, sep c = false) s → split_at sep s = [s]).
Proof.
  destruct (split_at_facts sep s) as (Hlen & Hall & Hjoin).
  split_and!; [exact Hlen|exact Hall|exact Hjoin|].
  apply split_at_no_sep.
Qed.

(** Removing the prompts: what is left of a string is the string itself or
    its remainder behind the first line; of a line without line breaks it is
    the line or the empty string; and removing twice changes nothing more. *)
Theorem remove_prompt_idempotent (l : str) :
  (remove_prompt l = l ∨ remove_prompt l = after_first_line l) ∧
  (Forall (λ c, is_newline c = false) l → remove_prompt l = l ∨ remove_prompt l = []) ∧
  remove_prompt (remove_prompt l) = remove_prompt l.
Proof.
  destruct (remove_prompt_facts l) as (Hshape & Hline & Htwice).
  split_and!; [exact Hshape|exact Hline|exact Htwice].
Qed.

(** The body of the play has the lines of the script, each one kept as it
    is or emptied: splitting the body into lines gives the cleaned lines,
    as many as the script has. *)
Theorem troilus_body_lines (troilus : str) :
  split_at is_newline (troilus_body troilus) = cleaned_lines troilus ∧
  length (cleaned_lines troilus) = S (length (filter (λ c, is_newline c) troilus)) ∧
  Forall2 (λ l l', l' = l ∨ l' = []) (split_at is_newline troilus) (cleaned_lines troilus).
Proof.
  destruct (split_at_facts is_newline troilus) as (Hlen & Hall & _).
  unfold troilus_body, cleaned_lines. split_and!.
  - apply split_join_lines.
    + intros Hnil. apply fmap_nil_inv in Hnil.
      by apply (split_at_nonempty is_newline troilus).
    + apply Forall_fmap. eapply Forall_impl; [exact Hall|].
      intros l Hl. by apply remove_prompt_no_newline.
  - by rewrite length_fmap.
  - apply Forall2_fmap_r, Forall_Forall2_diag.
    eapply Forall_impl; [exact Hall|].
    intros l Hl. destruct (remove_prompt_facts l) as (_ & H & _). auto.
Qed.

Lemma split_at_head_nil (P : char → bool) s piece pieces :
  split_at (λ c, negb (P c)) s = piece :: pieces →
  starts_with P s = bool_decide (piece ≠ []).
Proof.
  destruct s as [|c s]; simpl.
  - by intros [= <- <-].
  - destruct (P c); simpl.
    + destruct (split_at _ s); by intros [= <- <-].
    + by intros [= <- <-].
Qed.

(** The runs of characters of a class are the non-empty pieces that
    cutting at the other characters leaves: every run is non-empty and made
    of the class, the runs hold all characters of the class in order, and no
    run borders on another. *)
Theorem findall_runs_as_split (P : char → bool) (s : str) :
  findall_runs P s = filter (λ piece, piece ≠ []) (split_at (λ c, negb (P c)) s) ∧
  Forall (λ run, run ≠ [] ∧ Forall (λ c, P c = true) run) (findall_runs P s) ∧
  mjoin (findall_runs P s) = filter (λ c, P c) s.
Proof.
  assert (Heq : findall_runs P s
                = filter (λ piece, piece ≠ []) (split_at (λ c, negb (P c)) s)).
  { induction s as [|c s IH]; [done|].
    destruct (split_at (λ c, negb (P c)) s) as [|piece pieces] eqn:E;
      [by apply split_at_nonempty in E|].
    pose proof (split_at_head_nil P s piece pieces E) as Hhead.
    destruct (P c) eqn:Ec.
    - rewrite (split_at_cons_other _ c s piece pieces) by (done || by rewrite Ec).
      rewrite filter_cons_True by done.
      simpl. rewrite Ec, Hhead, IH.
      destruct piece as [|x piece].
      + rewrite bool_decide_eq_false_2 by (by intros []).
        by rewrite filter_cons_False by (by intros []).
      + rewrite bool_decide_eq_true_2 by done.
        by rewrite filter_cons_True by done.
    - rewrite split_at_cons_sep, E by (by rewrite Ec).
      rewrite filter_cons_False by (by intros []).
      simpl. by rewrite Ec, IH. }
  destruct (split_at_facts (λ c, negb (P c)) s) as (_ & Hall & Hjoin).
  split_and!; [done| |].
  - rewrite Heq. apply Forall_forall. intros run [Hne Hin]%list_elem_of_filter.
    split; [done|]. rewrite Forall_forall in Hall.
    eapply Forall_impl; [exact (Hall run Hin)|].
    intros c Hc. simpl in Hc. by apply negb_false_iff.
  - rewrite Heq. transitivity (mjoin (split_at (λ c, negb (P c)) s)).
    + clear. induction (split_at _ s) as [|piece pieces IH]; [done|].
      destruct piece as [|x piece].
      * by rewrite filter_cons_False by (by intros []).
      * rewrite filter_cons_True by done. csimpl. do 2 f_equal. exact IH.
    + unfold str in *. rewrite Hjoin. apply list_filter_iff. intros c.
      unfold Is_true. destruct (P c); simpl; tauto.
Qed.

(** The word counts of In[15]: one count for every line of the script, and
    a count of zero for every line the prompt pattern removes. *)
Theorem prompt_lines_count_no_words (ucd_isword : char → bool) (troilus : str) :
  length (line_num_words ucd_isword troilus)
    = S (length (filter (λ c, is_newline c) troilus)) ∧
  (∀ i l, split_at is_newline troilus !! i = Some l → is_prompt l = true →
          line_num_words ucd_isword troilus !! i = Some 0) ∧
  (∀ i l, split_at is_newline troilus !! i = Some l → is_prompt l = false →
          line_num_words ucd_isword troilus !! i
          = Some (length (findall_runs (is_word ucd_isword) l))).
Proof.
  destruct (split_at_facts is_newline troilus) as (Hlen & Hall & _).
  unfold line_num_words, cleaned_lines. split_and!.
  - by rewrite !length_fmap.
  - intros i l Hi Hp. rewrite !list_lookup_fmap, Hi. simpl.
    unfold remove_prompt. rewrite Hp.
    rewrite after_first_line_no_newline; [done|].
    rewrite Forall_forall in Hall. apply Hall. by eapply list_elem_of_lookup_2.
  - intros i l Hi Hp. rewrite !list_lookup_fmap, Hi. simpl.
    unfold remove_prompt. by rewrite Hp.
Qed.

Lemma prompt_lines_count_no_words_witness :
  line_num_words (λ _, false) (lit "TROILUS." ++ [newline] ++ lit "Call here my varlet") !! 0
  = Some 0.
Proof.
  apply (proj1 (proj2 (prompt_lines_count_no_words (λ _, false)
                         (lit "TROILUS." ++ [newline] ++ lit "Call here my varlet")))
           0 (lit "TROILUS.")); reflexivity.
Defined.

Lemma take_while_Forall P s : Forall (λ c, P c = true) (take_while P s).
Proof.
  induction s as [|c s IH]; simpl; [constructor|].
  destruct (P c) eqn:E; by constructor.
Qed.

Lemma take_while_nonempty P s : starts_with P s = true → take_while P s ≠ [].
Proof. destruct s as [|c s]; simpl; [done|]. by intros ->. Qed.

Lemma take_drop_while P s : take_while P s ++ drop_while P s = s.
Proof.
  induction s as [|c s IH]; simpl; [done|].
  destruct (P c); simpl; [by rewrite IH|done].
Qed.

Lemma drop_while_starts P s : starts_with P (drop_while P s) = false.
Proof.
  induction s as [|c s IH]; simpl; [done|].
  destruct (P c) eqn:E; simpl; done.
Qed.

Lemma take_while_all P s : Forall (λ c, P c = true) s → take_while P s = s.
Proof. induction 1 as [|c s Hc _ IH]; simpl; [done|]. by rewrite Hc, IH. Qed.

Lemma findall_head_word_inside_run head word s :
  Forall (λ c, word c = true) s → findall_head_word head word true s = [].
Proof. induction 1 as [|c s Hc _ IH]; simpl; [done|]. by rewrite Hc. Qed.

(** Where a match lies: a character of [H] in the text, followed by the
    whole run of word characters behind it, which is not empty. *)
Lemma findall_head_word_occurrence head word s : ∀ inside tok,
  tok ∈ findall_head_word head word inside s →
  ∃ pre c rest post,
    s = pre ++ c :: rest ++ post ∧ tok = c :: rest ∧ head c = true ∧
    rest ≠ [] ∧ Forall (λ c', word c' = true) rest ∧
    starts_with word post = false.
Proof.
  induction s as [|x s IH]; intros inside tok; simpl.
  - intros H. by apply elem_of_nil in H.
  - assert (Hrec : ∀ b, tok ∈ findall_head_word head word b s →
        ∃ pre c rest post,
          x :: s = pre ++ c :: rest ++ post ∧ tok = c :: rest ∧ head c = true ∧
          rest ≠ [] ∧ Forall (λ c', word c' = true) rest ∧
          starts_with word post = false).
    { intros b (pre & c & rest & post & -> & Htok)%IH.
      by exists (x :: pre), c, rest, post. }
    destruct (inside && word x); [by apply Hrec|].
    destruct (head x && starts_with word s) eqn:E; [|by apply Hrec].
    apply andb_true_iff in E as [Hh Hw].
    intros [->|Hin]%elem_of_cons; [|by eapply Hrec].
    exists [], x, (take_while word s), (drop_while word s).
    split_and!; [by rewrite take_drop_while|done..|
                 by apply take_while_nonempty|apply take_while_Forall|
                 apply drop_while_starts].
Qed.

Lemma findall_head_word_finds head word s :
  (∃ pre c c' post, s = pre ++ c :: c' :: post ∧ head c = true ∧ word c' = true) →
  findall_head_word head word false s ≠ [].
Proof.
  induction s as [|x s IH]; intros (pre & c & c' & post & Hs & Hc & Hc').
  - by destruct pre.
  - simpl. destruct (head x && starts_with word s) eqn:E; [done|].
    destruct pre as [|y pre]; simplify_eq/=.
    + by rewrite Hc, Hc' in E.
    + apply IH. by exists pre, c, c', post.
Qed.

(** The matches of [H\w+]: every match is a character of [H] in the text
    followed by the whole run of word characters behind it, at least one;
    there is a match exactly when some character of [H] in the text is
    directly followed by a word character; a text made of a character of
    [H] and word characters after it is a single match; and as the class
    [[A-Z|Ü]] holds the vertical bar, a bar followed by word characters is
    such a match. *)
Theorem findall_head_word_tokens (head word : char → bool) (s : str) :
  (∀ inside tok, tok ∈ findall_head_word head word inside s →
     ∃ pre c rest post,
       s = pre ++ c :: rest ++ post ∧ tok = c :: rest ∧ head c = true ∧
       rest ≠ [] ∧ Forall (λ c', word c' = true) rest ∧
       starts_with word post = false) ∧
  (findall_head_word head word false s ≠ []
   ↔ ∃ pre c c' post, s = pre ++ c :: c' :: post ∧ head c = true ∧ word c' = true) ∧
  (∀ c rest, s = c :: rest → head c = true → rest ≠ [] →
     Forall (λ c', word c' = true) rest →
     findall_head_word head word false s = [s]) ∧
  (∀ ucd_isword rest, rest ≠ [] →
     Forall (λ c', is_word ucd_isword c' = true) rest →
     findall_head_word is_capital_or_bar (is_word ucd_isword) false (124%N :: rest)
     = [124%N :: rest]).
Proof.
  assert (Hwhole : ∀ (h w : char → bool) c rest, h c = true → rest ≠ [] →
            Forall (λ c', w c' = true) rest →
            findall_head_word h w false (c :: rest) = [c :: rest]).
  { intros h w c rest Hc Hne Hall. simpl. rewrite Hc.
    destruct Hall as [|c' rest' Hc' Hrest]; [done|].
    simpl. rewrite Hc'. simpl.
    by rewrite take_while_all, findall_head_word_inside_run. }
  split_and!.
  - apply findall_head_word_occurrence.
  - split; [|apply findall_head_word_finds].
    intros Hne. destruct (findall_head_word head word false s) as [|tok toks] eqn:E;
      [done|].
    destruct (findall_head_word_occurrence head word s false tok)
      as (pre & c & rest & post & -> & _ & Hc & Hrest & Hall & _).
    { rewrite E. apply list_elem_of_here. }
    destruct Hall as [|c' rest' Hc' _]; [done|].
    by exists pre, c, c', (rest' ++ post).
  - intros c rest -> Hc Hne Hall. by apply Hwhole.
  - intros ucd_isword rest Hne Hall. by apply Hwhole.
Qed.

Lemma findall_head_word_tokens_witness :
  lit "ab" ≠ [] ∧
  findall_head_word is_capital_or_bar (is_word (λ _, false)) false (lit "|ab")
  = [lit "|ab"].
Proof.
  assert (Hne : lit "ab" ≠ []) by done.
  split; [exact Hne|].
  apply (proj2 (proj2 (proj2 (findall_head_word_tokens
                  is_capital_or_bar (is_word (λ _, false)) (lit "|ab"))))
           (λ _, false) (lit "ab") Hne).
  by repeat constructor.
Defined.


(** *** More on the counters *)

Lemma filter_all {A} (P : A → Prop) `{!∀ x, Decision (P x)} (l : list A) :
  (∀ x, P x) → filter P l = l.
Proof.
  intros HP. induction l as [|x l IH]; [done|].
  by rewrite filter_cons_True, IH.
Qed.

Lemma count_elements_total {K} `{EqDecision K} (l : list K) :
  sum_list (count_elements l).*2 = length l.
Proof.
  pose proof (count_elements_sum (λ _ : K, True) l) as H.
  by rewrite !filter_all in H.
Qed.

(** The counts of a counter add up to the number of elements counted; it
    has at most that many entries and no entry counts zero. *)
Theorem Counter_total {K} `{EqDecision K} (iterable : list K) :
  sum_list (Counter iterable).*2 = length iterable ∧
  length (Counter iterable) ≤ length iterable ∧
  Forall (λ x, 1 ≤ x.2) (Counter iterable).
Proof.
  unfold Counter.
  pose proof (count_elements_total iterable) as Hsum.
  assert (Hpos : Forall (λ x, 1 ≤ x.2) (count_elements iterable)).
  { apply Forall_forall. intros [k c] Hin.
    apply count_elements_elem in Hin as [Hk ->]. simpl.
    unfold occurrences.
    assert (Hf : k ∈ filter (λ x, x = k) iterable) by (by apply list_elem_of_filter).
    destruct (filter _ iterable); [by apply elem_of_nil in Hf|simpl; lia]. }
  split_and!; [done| |done].
  rewrite <- Hsum. clear Hsum.
  induction Hpos as [|x l Hx _ IH]; [done|]. rewrite fmap_cons.
  change (sum_list (x.2 :: l.*2)) with (x.2 + sum_list l.*2).
  rewrite length_cons. lia.
Qed.

Lemma most_common_left_out {K} `{EqDecision K} (c : dict K nat) (n : nat) x y :
  x ∈ most_common c n → y ∈ c → y ∉ most_common c n → y.2 ≤ x.2.
Proof.
  unfold most_common.
  pose proof (sorted_perm by_count_desc c) as Hp.
  - intros Hx Hy Hny.
    apply list_elem_of_lookup_1 in Hx as [i Hi].
    apply lookup_take_Some in Hi as [Hi Hin].
    rewrite <- Hp in Hy. apply list_elem_of_lookup_1 in Hy as [j Hj].
    assert (n ≤ j).
    { destruct (decide (j < n)) as [Hlt|]; [|lia].
      destruct Hny. eapply list_elem_of_lookup_2. apply lookup_take_Some. eauto. }
    pose proof (StronglySorted_lookup _ _ i j x y
                  (sorted_ordered by_count_desc by_count_desc_asym
                     by_count_desc_trans c) ltac:(lia) Hi Hj) as Hxy.
    unfold may_precede, by_count_desc in Hxy. by apply Nat.ltb_ge in Hxy.
Qed.

(** [most_common(n)] lists [n] entries of the counter, or all when there are
    fewer, and no entry it leaves out has a count greater than one it
    lists. *)
Theorem most_common_top {K} `{EqDecision K} (c : dict K nat) (n : nat) :
  length (most_common c n) = n `min` length c ∧
  (∀ x, x ∈ most_common c n → x ∈ c) ∧
  (∀ x y, x ∈ most_common c n → y ∈ c → y ∉ most_common c n → y.2 ≤ x.2).
Proof.
  pose proof (sorted_perm by_count_desc c) as Hp.
  split_and!.
  - unfold most_common. by rewrite length_take, Hp.
  - intros x Hx. rewrite <- Hp. unfold most_common in Hx.
    eapply elem_of_sublist; [exact Hx|apply sublist_take].
  - apply most_common_left_out.
Qed.

Lemma most_common_top_witness :
  (lit "c", 1) ∈ most_common (Counter (lit <$> ["b"; "a"; "c"; "a"; "b"; "d"]%string)) 3 ∧
  1 ≤ 1.
Proof.
  assert (H1 : (lit "c", 1) ∈ most_common (Counter (lit <$> ["b"; "a"; "c"; "a"; "b"; "d"]%string)) 3)
    by decide_by_evaluation.
  split; [exact H1|].
  apply (proj2 (proj2 (most_common_top
                         (Counter (lit <$> ["b"; "a"; "c"; "a"; "b"; "d"]%string)) 3))
           (lit "c", 1) (lit "d", 1) H1); decide_by_evaluation.
Defined.

(** *** More on the normaliser *)

(** The bag of words of In[19] counts every surviving token once: its
    counts add up to the number of raw tokens that pass the filters. *)
Theorem bow_total U L stops text :
  sum_list (Counter (lemmatized U L stops text)).*2
    = length (filter (survives U stops) (word_tokenize L text)) ∧
  length (lemmatized U L stops text) ≤ length (word_tokenize L text).
Proof.
  unfold Counter. rewrite count_elements_total.
  rewrite lemmatized_as_filter_map, length_fmap. split; [done|].
  apply sublist_length, sublist_filter.
Qed.

(** A longer stop list only removes more: the tokens left under the list of
    In[19] (modern and Early-Modern words) are, in order, among the tokens
    left under the list of In[22] (modern words only). *)
Theorem no_stops_antitone U L (stops stops' : list str) text :
  stops ⊆ stops' →
  no_stops U L stops' text `sublist_of` no_stops U L stops text ∧
  no_stops U L stops' text = filter (λ t, t ∉ stops') (no_stops U L stops text).
Proof.
  intros Hsub.
  assert (Heq : no_stops U L stops' text
                = filter (λ t, t ∉ stops') (no_stops U L stops text)).
  { unfold no_stops. rewrite list_filter_filter_l; [done|].
    intros t Ht Hin. by apply Ht, Hsub. }
  split; [|done]. rewrite Heq. apply sublist_filter.
Qed.

Lemma no_stops_antitone_witness :
  english_stops ⊆ troilus_stops ∧
  no_stops sample_ucd sample_nltk troilus_stops (lit "thou art the man")
    `sublist_of` no_stops sample_ucd sample_nltk english_stops (lit "thou art the man").
Proof.
  assert (H : english_stops ⊆ troilus_stops).
  { intros t Ht. apply elem_of_app. by left. }
  split; [exact H|].
  exact (proj1 (no_stops_antitone sample_ucd sample_nltk _ _ (lit "thou art the man") H)).
Defined.

(** No empty token passes the alphabetic filter, so the empty string that
    ends [english_stops] never removes anything. *)
Theorem empty_stop_entry_never_matches U L (stops : list str) text :
  ([] ∉ alpha_only U L text) ∧
  no_stops U L stops text = no_stops U L (filter (λ w, w ≠ []) stops) text.
Proof.
  split.
  - unfold alpha_only. rewrite list_elem_of_filter. by intros [? _].
  - unfold no_stops, alpha_only. rewrite !list_filter_filter.
    apply list_filter_iff. intros t. rewrite list_elem_of_filter. split.
    + intros [Hn Ha]. split; [|done]. by intros [_ ?].
    + intros [Hn Ha]. split; [|done]. intros Hin. apply Hn. split; [|done].
      intros ->. done.
Qed.

(** *** More on the corpus dictionary *)

Lemma revdict_foldl (t : dict str nat) : ∀ acc : dict nat str,
  NoDup (acc.*1 ++ t.*2) →
  foldl (λ r kv, dict_set r kv.2 kv.1) acc t = acc ++ (prod_swap <$> t).
Proof.
  induction t as [|[w i] t IH]; intros acc Hnd; csimpl in *.
  - by rewrite app_nil_r.
  - rewrite dict_set_absent.
    + rewrite IH; [by rewrite <- app_assoc|].
      by rewrite fmap_app, <- app_assoc.
    + apply NoDup_app in Hnd as (_ & Hdisj & _). intros Hin.
      apply (Hdisj i Hin), list_elem_of_here.
Qed.

Lemma revdict_swap (t : dict str nat) :
  NoDup t.*2 → revdict t = prod_swap <$> t.
Proof. intros Hnd. unfold revdict. by rewrite revdict_foldl. Qed.

Lemma revdict_get (t : dict str nat) w i :
  unique_ids t → dict_get (revdict t) i = Some w ↔ dict_get t w = Some i.
Proof.
  intros [Hk Hv]. rewrite revdict_swap by done.
  assert (Hks : NoDup (dict_keys (prod_swap <$> t))).
  { unfold dict_keys. replace ((prod_swap <$> t).*1) with t.*2; [done|].
    clear. induction t as [|[w' i'] t IH]; [done|]. csimpl. by rewrite IH. }
  split.
  - intros Hg%dict_get_Some_elem. apply dict_get_elem; [done|].
    apply list_elem_of_fmap in Hg as ([w' i'] & Heq & Hin). by simplify_eq/=.
  - intros Hg%dict_get_Some_elem. apply dict_get_elem; [done|].
    apply list_elem_of_fmap. by exists (w, i).
Qed.

(** The two directions of the vocabulary agree: the id of a token leads
    back to the token, a token found under an id has that id, and asking
    for the word of a token that is not in the vocabulary gives [None]. *)
Theorem vocabulary_round_trip (d : gensim_dictionary) :
  unique_ids (token2id d) →
  (∀ w i, token2id_get d w = Some i → Dictionary_get d (token2id_get d w) = Some w) ∧
  (∀ w i, Dictionary_get d (Some i) = Some w → token2id_get d w = Some i) ∧
  (∀ w, w ∉ dict_keys (token2id d) → Dictionary_get d (token2id_get d w) = None).
Proof.
  intros Hu. split_and!.
  - intros w i Hg. rewrite Hg. simpl. by apply revdict_get.
  - intros w i Hg. simpl in Hg. by apply revdict_get in Hg.
  - intros w Hw. apply dict_get_None in Hw. unfold token2id_get. by rewrite Hw.
Qed.

Lemma vocabulary_round_trip_witness :
  unique_ids [(lit "benefit", 0); (lit "cost", 1); (lit "analysis", 2)] ∧
  Dictionary_get {| token2id := [(lit "benefit", 0); (lit "cost", 1); (lit "analysis", 2)] |}
    (token2id_get {| token2id := [(lit "benefit", 0); (lit "cost", 1); (lit "analysis", 2)] |}
       (lit "cost"))
  = Some (lit "cost").
Proof.
  assert (H : unique_ids [(lit "benefit", 0); (lit "cost", 1); (lit "analysis", 2)]).
  { split; apply (bool_decide_unpack _); vm_compute; exact I. }
  split; [exact H|].
  exact (proj1 (vocabulary_round_trip
                  {| token2id := [(lit "benefit", 0); (lit "cost", 1); (lit "analysis", 2)] |} H)
           (lit "cost") 1 eq_refl).
Defined.

(** Whenever the constructor reaches no pruning step, and so for every
    corpus of at most 10000 documents, the vocabulary it returns has one
    entry for every distinct token of the corpus. *)
Theorem vocabulary_size (documents : list (list str)) :
  ((N.of_nat (length documents) ≤ 10000)%N → is_Some (Dictionary documents)) ∧
  (∀ d, Dictionary documents = Some d →
     dict_keys (token2id d) ≡ₚ remove_dups (mjoin documents) ∧
     length (token2id d) = length (remove_dups (mjoin documents))).
Proof.
  split; [apply Dictionary_is_Some|]. intros d Hd.
  assert (Hempty : well_numbered (token2id {| token2id := [] |})).
  { split; [constructor|done]. }
  destruct (add_documents_spec documents _ _ d Hempty Hd) as ([Hnd _] & _ & Hkeys & _).
  assert (Hp : dict_keys (token2id d) ≡ₚ remove_dups (mjoin documents)).
  { apply NoDup_Permutation; [done|apply NoDup_remove_dups|].
    intros w. rewrite Hkeys, elem_of_remove_dups, list_elem_of_join. split.
    - intros [Hin|(doc & ? & ?)]; [by apply elem_of_nil in Hin|]. by exists doc.
    - intros (doc & ? & ?). right. by exists doc. }
  split; [done|]. rewrite <- Hp. unfold dict_keys. by rewrite length_fmap.
Qed.

Lemma vocabulary_size_witness :
  ∃ d, Dictionary sample_documents = Some d ∧ length (token2id d) = 3.
Proof.
  eexists. split; [apply sample_dictionary|].
  exact (proj2 (proj2 (vocabulary_size sample_documents) _ sample_dictionary)).
Defined.

Lemma add_documents_app l1 : ∀ self docno l2,
  add_documents self docno (l1 ++ l2)
  = add_documents self docno l1
      ≫= λ d1, add_documents d1 (docno + N.of_nat (length l1))%N l2.
Proof.
  induction l1 as [|doc l1 IH]; intros self docno l2.
  - simpl. by rewrite N.add_0_r.
  - cbn [add_documents app]. destruct (_ && _)%bool; [done|].
    rewrite IH. rewrite length_cons.
    by replace (docno + 1 + N.of_nat (length l1))%N
         with (docno + N.of_nat (S (length l1)))%N by lia.
Qed.

(** As long as no pruning step is reached, and so for at most 10000
    documents in all, building the vocabulary is append-only: when the
    constructor returns unpruned for the documents and for the documents
    with more behind them, the second vocabulary holds the entries of the
    first as they are. *)
Theorem vocabulary_append_only (documents more : list (list str)) :
  ((N.of_nat (length (documents ++ more)) ≤ 10000)%N →
   is_Some (Dictionary documents) ∧ is_Some (Dictionary (documents ++ more))) ∧
  (∀ d d', Dictionary documents = Some d →
     Dictionary (documents ++ more) = Some d' →
     (∃ ext, token2id d' = token2id d ++ ext) ∧
     (∀ w i, token2id_get d w = Some i → token2id_get d' w = Some i)).
Proof.
  split.
  - intros Hle. split; apply Dictionary_is_Some; [|done].
    rewrite length_app in Hle. lia.
  - unfold Dictionary. intros d d' Hd Hd'.
    rewrite add_documents_app, Hd in Hd'. simpl in Hd'.
    assert (Hempty : well_numbered (token2id {| token2id := [] |})).
    { split; [constructor|done]. }
    destruct (add_documents_spec documents _ _ d Hempty Hd) as (Hwn & _).
    destruct (add_documents_spec more _ _ d' Hwn Hd') as (_ & [ext Hext] & _).
    split; [by exists ext|].
    intros w i Hg. unfold token2id_get in *. by rewrite Hext, dict_get_app, Hg.
Qed.

Lemma vocabulary_append_only_witness :
  ∃ d d', Dictionary (take 1 sample_documents) = Some d ∧
          Dictionary (take 1 sample_documents ++ drop 1 sample_documents) = Some d' ∧
          (token2id_get d (lit "cost") = Some 1 → token2id_get d' (lit "cost") = Some 1).
Proof.
  assert (H1 : Dictionary (take 1 sample_documents)
               = Some {| token2id := [(lit "benefit", 0); (lit "cost", 1)] |})
    by (vm_compute; reflexivity).
  do 2 eexists. split; [exact H1|]. split; [apply sample_dictionary|].
  exact (proj2 (proj2 (vocabulary_append_only _ (drop 1 sample_documents)) _ _
                  H1 sample_dictionary) (lit "cost") 1).
Defined.

(** *** More on the document vectors *)

Lemma sorted_id_tuples_ordered (l : list (nat * nat)) :
  StronglySorted (may_precede id_tuple_lt) (sorted id_tuple_lt l).
Proof.
  apply sorted_ordered.
  - apply tuple_lt_asym.
    + apply Nat.ltb_irrefl.
    + intros a b c. rewrite !Nat.ltb_lt. lia.
    + intros a b. rewrite Nat.ltb_lt, Nat.ltb_ge. lia.
  - apply tuple_le_trans.
    + apply Nat.ltb_irrefl.
    + intros a b c. rewrite !Nat.ltb_lt. lia.
    + intros a b. rewrite !Nat.ltb_lt. lia.
    + intros a b c. rewrite !Nat.ltb_ge. lia.
Qed.

Lemma sorted_ids_ascending (l : list (nat * nat)) i j a b :
  NoDup l.*1 → i < j →
  sorted id_tuple_lt l !! i = Some a → sorted id_tuple_lt l !! j = Some b →
  a.1 < b.1.
Proof.
  intros Hnd Hij Hi Hj.
  pose proof (StronglySorted_lookup _ _ i j a b (sorted_id_tuples_ordered l) Hij Hi Hj)
    as Hab.
  assert (Hne : a.1 ≠ b.1).
  { intros Heq.
    assert (Hnd' : NoDup (sorted id_tuple_lt l).*1) by (by rewrite sorted_perm).
    assert (i = j); [|lia].
    apply (NoDup_lookup _ i j a.1 Hnd'); rewrite list_lookup_fmap.
    - by rewrite Hi.
    - rewrite Hj. simpl. by rewrite Heq. }
  unfold may_precede, id_tuple_lt, tuple_lt in Hab.
  rewrite decide_False in Hab by congruence.
  apply Nat.ltb_ge in Hab. lia.
Qed.

Lemma occurrences_pos {K} `{EqDecision K} (k : K) l : k ∈ l → 1 ≤ occurrences k l.
Proof.
  intros Hk. unfold occurrences.
  assert (Hf : k ∈ filter (λ x, x = k) l) by (by apply list_elem_of_filter).
  destruct (filter _ l); [by apply elem_of_nil in Hf|simpl; lia].
Qed.

Lemma doc2bow_elem d document x :
  unique_ids (token2id d) →
  x ∈ (doc2bow d document false).1 ↔
  ∃ w, w ∈ document ∧ token2id_get d w = Some x.1 ∧ x.2 = occurrences w document.
Proof.
  intros Hu. rewrite (doc2bow_perm d document Hu), list_elem_of_omap.
  unfold bow_entry, token2id_get. split.
  - intros ([w c] & [Hw ->]%count_elements_elem & Hentry). simpl in Hentry.
    destruct (dict_get (token2id d) w) as [i|] eqn:E; simplify_eq/=.
    by exists w.
  - intros (w & Hw & Hg & Hc). exists (w, occurrences w document). split.
    + by apply count_elements_elem.
    + simpl. rewrite Hg. simpl. destruct x. simpl in *. by subst.
Qed.

(** A document vector lists its ids in strictly ascending order; each entry
    belongs to a token of the document that the vocabulary holds and
    carries the number of its occurrences, which is never zero; the vector
    is empty exactly when the vocabulary holds no token of the document. *)
Theorem doc2bow_vector_shape (d : gensim_dictionary) (document : list str) :
  unique_ids (token2id d) →
  let bow := (doc2bow d document false).1 in
  (∀ i j a b, i < j → bow !! i = Some a → bow !! j = Some b → a.1 < b.1) ∧
  (∀ x, x ∈ bow ↔ ∃ w, w ∈ document ∧ token2id_get d w = Some x.1 ∧
                       x.2 = occurrences w document) ∧
  Forall (λ x, 1 ≤ x.2) bow ∧
  (bow = [] ↔ ∀ w, w ∈ document → token2id_get d w = None).
Proof.
  intros Hu bow. split_and!.
  - intros i j a b. apply sorted_ids_ascending.
    rewrite bow_of_omap by (done || apply count_elements_NoDup).
    apply bow_entry_keys_NoDup; [done|apply count_elements_NoDup].
  - intros x. by apply doc2bow_elem.
  - apply Forall_forall. intros x (w & Hw & _ & ->)%doc2bow_elem; [|done].
    by apply occurrences_pos.
  - split.
    + intros Hnil w Hw. destruct (token2id_get d w) as [i|] eqn:E; [|done].
      assert (Hin : (i, occurrences w document) ∈ bow).
      { apply doc2bow_elem; [done|]. by exists w. }
      rewrite Hnil in Hin. by apply elem_of_nil in Hin.
    + intros Hnone. destruct bow as [|x bow'] eqn:E; [done|].
      assert (Hin : x ∈ (doc2bow d document false).1).
      { fold bow. rewrite E. apply list_elem_of_here. }
      apply doc2bow_elem in Hin as (w & Hw & Hg & _); [|done].
      by rewrite (Hnone w Hw) in Hg.
Qed.

Lemma doc2bow_vector_shape_witness :
  unique_ids [(lit "benefit", 0); (lit "cost", 1); (lit "analysis", 2)] ∧
  Forall (λ x, 1 ≤ x.2)
    (doc2bow {| token2id := [(lit "benefit", 0); (lit "cost", 1); (lit "analysis", 2)] |}
       (lit <$> ["cost"; "of"; "cost"; "benefit"]%string) false).1.
Proof.
  assert (H : unique_ids [(lit "benefit", 0); (lit "cost", 1); (lit "analysis", 2)]).
  { split; apply (bool_decide_unpack _); vm_compute; exact I. }
  split; [exact H|].
  exact (proj1 (proj2 (proj2 (doc2bow_vector_shape
                  {| token2id := [(lit "benefit", 0); (lit "cost", 1); (lit "analysis", 2)] |}
                  (lit <$> ["cost"; "of"; "cost"; "benefit"]%string) H)))).
Defined.

(** *** The corpus under its own dictionary *)

Lemma doc2bow_sum d document :
  unique_ids (token2id d) →
  sum_list (doc2bow d document false).1.*2
  = length (filter (λ w, is_Some (dict_get (token2id d) w)) document).
Proof.
  intros Hu. rewrite (doc2bow_perm d document Hu), bow_entry_counts.
  exact (count_elements_sum (λ w, is_Some (dict_get (token2id d) w)) document).
Qed.

Lemma doc2bow_count_sum d document i :
  unique_ids (token2id d) →
  count_sum i (doc2bow d document false).1
  = length (filter (λ w, dict_get (token2id d) w = Some i) document).
Proof.
  intros Hu. rewrite (count_sum_perm i _ _ (doc2bow_perm d document Hu)).
  unfold count_sum. rewrite bow_entry_counts_for.
  exact (count_elements_sum (λ w, dict_get (token2id d) w = Some i) document).
Qed.

Lemma totals_sum (items : list (nat * nat)) :
  sum_list (foldl add_word_count [] items).*2 = sum_list items.*2.
Proof.
  induction items as [|[k c] items IH] using rev_ind; [done|].
  rewrite foldl_snoc, fmap_app, sum_list_with_app, <- IH.
  set (d := foldl add_word_count [] items).
  assert (Hset : ∀ (d' : dict nat nat) v,
             sum_list (dict_set d' k v).*2 + default 0 (dict_get d' k)
             = sum_list d'.*2 + v).
  { intros d' v. pose proof (sum_filter_dict_set (λ _ : nat, True) d' k v) as H.
    by rewrite !filter_all in H. }
  unfold add_word_count, defaultdict_getitem. simpl.
  destruct (dict_get d k) as [v|] eqn:E; simpl.
  - pose proof (Hset d (v + c)) as H. rewrite E in H. simpl in H. lia.
  - pose proof (Hset d 0) as H0. rewrite E in H0. simpl in H0.
    pose proof (Hset (dict_set d k 0) (0 + c)) as H1.
    rewrite dict_get_set, decide_True in H1 by done. simpl in H1. lia.
Qed.

Lemma corpus_of_cons d article articles :
  corpus_of d (article :: articles)
  = (doc2bow d article false).1 :: corpus_of d articles.
Proof. reflexivity. Qed.

Lemma filter_Forall_id {A} (P : A → Prop) `{!∀ x, Decision (P x)} (l : list A) :
  Forall P l → filter P l = l.
Proof.
  induction 1 as [|x l Hx _ IH]; [done|]. by rewrite filter_cons_True, IH.
Qed.

Lemma sum_list_join_counts (corpus : list (list (nat * nat))) :
  sum_list (mjoin corpus).*2 = sum_list ((λ bow, sum_list bow.*2) <$> corpus).
Proof.
  induction corpus as [|bow corpus IH]; [done|].
  csimpl. by rewrite fmap_app, sum_list_with_app, IH.
Qed.

(** When the vectors are made with the dictionary built from the same
    articles, and the constructor reached no pruning step on them (as it
    does not for at most 10000 articles), no token is ignored: the counts of each vector add up to the
    length of its article, the corpus totals add up to the number of tokens
    of all articles, and the total kept under the id of a token is the
    number of its occurrences in all articles. *)
Theorem corpus_of_own_dictionary (articles : list (list str)) :
  ((N.of_nat (length articles) ≤ 10000)%N → is_Some (Dictionary articles)) ∧
  (∀ d, Dictionary articles = Some d →
     Forall2 (λ article bow, sum_list bow.*2 = length article)
       articles (corpus_of d articles) ∧
     sum_list (total_word_count (corpus_of d articles)).*2 = length (mjoin articles) ∧
     (∀ w, w ∈ mjoin articles →
        ∃ i, token2id_get d w = Some i ∧
             dict_get (total_word_count (corpus_of d articles)) i
             = Some (occurrences w (mjoin articles)))).
Proof.
  split; [apply Dictionary_is_Some|]. intros d Hd.
  pose proof (Dictionary_unique_ids articles d Hd) as Hu.
  assert (Hempty : well_numbered (token2id {| token2id := [] |})).
  { split; [constructor|done]. }
  destruct (add_documents_spec articles _ _ d Hempty Hd) as (_ & _ & Hkeys & _).
  assert (Hvec : Forall (λ article,
             sum_list (doc2bow d article false).1.*2 = length article) articles).
  { apply Forall_forall. intros article Ha. rewrite doc2bow_sum by done.
    rewrite filter_Forall_id; [done|]. apply Forall_forall. intros w Hw.
    apply dict_get_is_Some, Hkeys. right. by exists article. }
  split_and!.
  - unfold corpus_of. by apply Forall2_fmap_r, Forall_Forall2_diag.
  - unfold total_word_count. rewrite totals_sum, sum_list_join_counts.
    clear Hkeys Hd. induction Hvec as [|article rest Ha _ IH]; [done|].
    rewrite corpus_of_cons, fmap_cons.
    change (mjoin (article :: rest)) with (article ++ mjoin rest).
    rewrite length_app, <- Ha, <- IH. reflexivity.
  - intros w Hw.
    assert (Hin : w ∈ dict_keys (token2id d)).
    { apply Hkeys. right.
      apply list_elem_of_join in Hw as (doc & ? & ?). by exists doc. }
    apply dict_get_is_Some in Hin as [i Hi]. exists i. split; [done|].
    assert (Hsum : count_sum i (mjoin (corpus_of d articles))
                   = occurrences w (mjoin articles)).
    { unfold occurrences.
      rewrite (list_filter_iff (λ x, x = w) (λ x, dict_get (token2id d) x = Some i)).
      - clear Hw Hvec Hkeys Hd. induction articles as [|article rest IH]; [done|].
        rewrite corpus_of_cons.
        change (mjoin (article :: rest)) with (article ++ mjoin rest).
        change (mjoin ((doc2bow d article false).1 :: corpus_of d rest))
          with ((doc2bow d article false).1 ++ mjoin (corpus_of d rest)).
        rewrite count_sum_app, filter_app, length_app, doc2bow_count_sum by done.
        f_equal. apply IH.
      - intros w'. split; [by intros ->|]. intros Hw'.
        by apply (unique_ids_inj (token2id d) w' w i). }
    rewrite total_word_count_get, Hsum. rewrite decide_True; [done|].
    destruct (decide (i ∈ (mjoin (corpus_of d articles)).*1)) as [|Hn]; [done|].
    apply count_sum_absent in Hn. rewrite Hsum in Hn.
    pose proof (occurrences_pos w (mjoin articles) Hw). lia.
Qed.

Lemma corpus_of_own_dictionary_witness :
  ∃ d, Dictionary sample_documents = Some d ∧
       sum_list (total_word_count (corpus_of d sample_documents)).*2 = 5.
Proof.
  eexists. split; [apply sample_dictionary|].
  exact (proj1 (proj2 (proj2 (corpus_of_own_dictionary sample_documents)
                         _ sample_dictionary))).
Defined.

(** *** The queries on the corpus *)

Lemma sublist_pair_indices {A} (l : list A) a b :
  [a; b] `sublist_of` l → ∃ i j, i < j ∧ l !! i = Some a ∧ l !! j = Some b.
Proof.
  intros (k1 & k2 & -> & Hb)%sublist_cons_l.
  apply singleton_sublist_l, list_elem_of_lookup_1 in Hb as [n Hn].
  exists (length k1), (length k1 + S n). split_and!; [lia| |].
  - apply list_lookup_middle. done.
  - rewrite lookup_app_r by lia.
    by replace (length k1 + S n - length k1) with (S n) by lia.
Qed.

Lemma doc2bow_keys_NoDup d document :
  unique_ids (token2id d) →
  NoDup (bow_of (token2id d) (count_elements document)).*1.
Proof.
  intros Hu. rewrite bow_of_omap by (done || apply count_elements_NoDup).
  apply bow_entry_keys_NoDup; [done|apply count_elements_NoDup].
Qed.

(** The ranking of In[25]: [bow_doc] holds the entries of the document
    vector with the counts falling; entries of equal count stand in the
    order of their ids; and the word looked up for a listed id is a token of
    the document. *)
Theorem bow_doc_order (d : gensim_dictionary) (document : list str) :
  unique_ids (token2id d) →
  let doc := (doc2bow d document false).1 in
  bow_doc doc ≡ₚ doc ∧
  (∀ i j a b, i < j → bow_doc doc !! i = Some a → bow_doc doc !! j = Some b →
     b.2 ≤ a.2 ∧ (a.2 = b.2 → a.1 < b.1)) ∧
  (∀ x, x ∈ take 5 (bow_doc doc) →
     ∃ w, Dictionary_get d (Some x.1) = Some w ∧ w ∈ document).
Proof.
  intros Hu doc. split_and!.
  - apply sorted_perm.
  - intros i j a b Hij Hi Hj.
    assert (Hi' : most_common doc (S j) !! i = Some a).
    { apply lookup_take_Some. split; [done|lia]. }
    assert (Hj' : most_common doc (S j) !! j = Some b).
    { apply lookup_take_Some. split; [done|lia]. }
    destruct (most_common_order doc (S j) i j a b Hij Hi' Hj') as [Hle Htie].
    split; [done|]. intros Heq.
    destruct (sublist_pair_indices doc a b (Htie Heq)) as (i' & j' & Hlt & Ha & Hb).
    by apply (sorted_ids_ascending _ i' j' a b (doc2bow_keys_NoDup d document Hu)).
  - intros x Hx.
    assert (Hin : x ∈ doc).
    { rewrite <- (sorted_perm by_count_desc doc).
      eapply elem_of_sublist; [exact Hx|apply sublist_take]. }
    apply doc2bow_elem in Hin as (w & Hw & Hg & _); [|done].
    exists w. split; [|done]. simpl. by apply revdict_get.
Qed.

Lemma bow_doc_order_witness :
  unique_ids [(lit "benefit", 0); (lit "cost", 1); (lit "analysis", 2)] ∧
  bow_doc (doc2bow {| token2id := [(lit "benefit", 0); (lit "cost", 1); (lit "analysis", 2)] |}
             (lit <$> ["cost"; "analysis"; "cost"; "benefit"]%string) false).1
  ≡ₚ (doc2bow {| token2id := [(lit "benefit", 0); (lit "cost", 1); (lit "analysis", 2)] |}
        (lit <$> ["cost"; "analysis"; "cost"; "benefit"]%string) false).1.
Proof.
  assert (H : unique_ids [(lit "benefit", 0); (lit "cost", 1); (lit "analysis", 2)]).
  { split; apply (bool_decide_unpack _); vm_compute; exact I. }
  split; [exact H|].
  exact (proj1 (bow_doc_order
                  {| token2id := [(lit "benefit", 0); (lit "cost", 1); (lit "analysis", 2)] |}
                  (lit <$> ["cost"; "analysis"; "cost"; "benefit"]%string) H)).
Defined.

Lemma dict_of_items_foldl {K V} `{EqDecision K} (items : list (K * V)) : ∀ acc : dict K V,
  NoDup (acc.*1 ++ items.*1) →
  foldl (λ d kv, dict_set d kv.1 kv.2) acc items = acc ++ items.
Proof.
  induction items as [|[k v] items IH]; intros acc Hnd; csimpl in *.
  - by rewrite app_nil_r.
  - rewrite dict_set_absent.
    + rewrite IH; [by rewrite <- app_assoc|].
      by rewrite fmap_app, <- app_assoc.
    + apply NoDup_app in Hnd as (_ & Hdisj & _). intros Hin.
      apply (Hdisj k Hin), list_elem_of_here.
Qed.

Lemma dict_of_items_id {K V} `{EqDecision K} (items : list (K * V)) :
  NoDup items.*1 → dict_of_items items = items.
Proof. intros Hnd. unfold dict_of_items. by rewrite dict_of_items_foldl. Qed.

(** The table of In[26]: [w2cSorted] holds the ten ids with the largest
    totals, or all ids when there are fewer; its values are the totals; the
    lookups the print loop makes in it all succeed; and no id left out has a
    larger total than an id listed. *)
Theorem w2cSorted_top_ten (corpus : list (list (nat * nat))) :
  let totals := total_word_count corpus in
  w2cSorted totals = most_common totals 10 ∧
  length (w2cSorted totals) = 10 `min` length totals ∧
  (∀ k, k ∈ dict_keys (w2cSorted totals) →
        is_Some (dict_get (w2cSorted totals) k) ∧
        dict_get (w2cSorted totals) k = dict_get totals k) ∧
  (∀ x y, x ∈ w2cSorted totals → y ∈ totals → y ∉ w2cSorted totals → y.2 ≤ x.2).
Proof.
  intros totals.
  pose proof (totals_NoDup (mjoin corpus)) as Hnd. fold (total_word_count corpus) in Hnd.
  fold totals in Hnd.
  assert (Hsub : most_common totals 10 `sublist_of` sorted by_count_desc totals)
    by apply sublist_take.
  assert (Hnd' : NoDup (most_common totals 10).*1).
  { apply (sublist_NoDup _ (sorted by_count_desc totals).*1).
    - by rewrite sorted_perm.
    - by apply fmap_sublist. }
  assert (Heq : w2cSorted totals = most_common totals 10)
    by (by apply dict_of_items_id).
  rewrite !Heq. split_and!.
  - done.
  - unfold most_common. by rewrite length_take, sorted_perm.
  - intros k Hk. apply dict_get_is_Some in Hk as [v Hv].
    split; [by eexists|]. rewrite Hv. symmetry.
    apply dict_get_elem; [done|].
    rewrite <- (sorted_perm by_count_desc totals).
    eapply elem_of_sublist; [|exact Hsub]. by apply dict_get_Some_elem.
  - apply most_common_left_out.
Qed.

(** The queries [corpus[3][:10]] and [corpus[2]] of In[24] and In[25] are
    answered exactly when at least four, respectively three, pages were
    retrieved: the loop of In[22] makes one article of every response and
    the corpus has one vector for every article. *)
Theorem corpus_queries_need_enough_responses U L (extract_text : str → str)
    (d : gensim_dictionary) (responses : list Response) :
  let corpus := corpus_of d (articles_of U L extract_text responses) in
  length corpus = length responses ∧
  (is_Some (first_ids_of_fourth corpus) ↔ 4 ≤ length responses) ∧
  (is_Some (getitem corpus 2) ↔ 3 ≤ length responses) ∧
  (∀ ids, first_ids_of_fourth corpus = Some ids → length ids ≤ 10).
Proof.
  intros corpus.
  assert (Hlen : length corpus = length responses).
  { unfold corpus, corpus_of, articles_of. by rewrite !length_fmap. }
  split_and!.
  - done.
  - unfold first_ids_of_fourth, getitem. rewrite fmap_is_Some, lookup_lt_is_Some. lia.
  - unfold getitem. rewrite lookup_lt_is_Some. lia.
  - unfold first_ids_of_fourth. intros ids Hids.
    apply fmap_Some in Hids as (bow & _ & ->). rewrite length_take. lia.
Qed.

(** *** More on the download loop *)

Lemma try_get_fails get u r :
  get u = Return r →
  is_Return (try_get get u) = false ↔ (400 ≤ status_code r < 600)%Z.
Proof.
  intros Hg. unfold try_get, raise_for_status. rewrite Hg.
  destruct (400 <=? status_code r)%Z eqn:E1, (status_code r <? 600)%Z eqn:E2; simpl;
    rewrite ?Z.leb_le, ?Z.leb_gt, ?Z.ltb_lt, ?Z.ltb_ge in *; split; (done || lia).
Qed.

(** The loop ends without an exception exactly when every page is fetched;
    a single page that cannot be fetched, be it for a failed request or for
    a status from 400 to 599, ends it with the [NameError] of the unbound
    name in the first [except] clause. *)
Theorem download_returns_iff_all_fetched (get : string → result Response)
    (us : list string) (rs : list Response) :
  (is_Return (download get us rs) = true
   ↔ ∀ u, u ∈ us → is_Return (try_get get u) = true) ∧
  (∀ u, u ∈ us → is_Return (try_get get u) = false →
        download get us rs = Raise name_error_HTTPError) ∧
  (∀ u r, get u = Return r →
        is_Return (try_get get u) = false ↔ (400 ≤ status_code r < 600)%Z).
Proof.
  assert (Hfail : ∀ u, u ∈ us → is_Return (try_get get u) = false →
                       download get us rs = Raise name_error_HTTPError).
  { intros u Hu Hf. destruct (try_get get u) as [r|e] eqn:E; [done|].
    by eapply download_first_failure. }
  split_and!; [|done|apply try_get_fails].
  split.
  - intros Hret u Hu. destruct (is_Return (try_get get u)) eqn:E; [done|].
    by rewrite (Hfail u Hu E) in Hret.
  - intros Hall. destruct (download_all_fetched get us rs) as (rs' & -> & _); [|done].
    intros u Hu. specialize (Hall u Hu).
    destruct (try_get get u) as [r|e]; [by exists r|done].
Qed.

(** When every page is fetched the responses are appended in the order of
    the URLs, one for each. *)
Theorem download_keeps_order (get : string → result Response)
    (us : list string) (rs : list Response) :
  (∀ u, u ∈ us → is_Return (try_get get u) = true) →
  ∃ rs', download get us rs = Return (rs ++ rs') ∧
         Forall2 (λ u r, get u = Return r) us rs'.
Proof.
  revert rs. induction us as [|u us IH]; intros rs Hall.
  - exists []. split; [by rewrite app_nil_r|constructor].
  - rewrite download_cons.
    assert (Hu : is_Return (try_get get u) = true) by (apply Hall, list_elem_of_here).
    destruct (try_get get u) as [r|e] eqn:E; [|done].
    destruct (IH (rs ++ [r])) as (rs' & -> & Hrs').
    { intros u' Hu'. by apply Hall, list_elem_of_further. }
    exists (r :: rs'). split; [by rewrite <- app_assoc|].
    constructor; [|done]. unfold try_get in E.
    destruct (get u) as [r0|e0]; [|done].
    destruct (raise_for_status r0); by simplify_eq.
Qed.

Lemma download_keeps_order_witness :
  ∃ rs', download (λ _, Return {| status_code := 200; text := [] |}) (take 3 urls) []
         = Return ([] ++ rs') ∧ length rs' = 3.
Proof.
  destruct (download_keeps_order (λ _, Return {| status_code := 200; text := [] |})
              (take 3 urls) []) as (rs' & Hd & Hall).
  - intros u _. reflexivity.
  - exists rs'. split; [exact Hd|]. by apply Forall2_length in Hall.
Defined.
